(** * ksonnet [cmd/diff.go]: locator parsing, diff-mode resolution and
      manifest expansion

    A shallow embedding of [cmd/diff.go].  Calls that leave the file (the
    metadata manager, the template expander, the client-go helpers, the
    flag set of the cobra command) are collaborators: each is an operation
    on an abstract state of the outside world, and every call is recorded
    in a log, so that statements such as "fails before any expansion" are
    statements about the log. *)

From Stdlib Require Import String Ascii List Bool Arith ZArith Lia.
Import ListNotations.
Local Open Scope string_scope.

(** ** Go's [strings] package, as far as [diff.go] uses it *)

Module Strings.

(** [strings.HasPrefix(s, prefix)]. *)
Definition HasPrefix (s prefix : string) : bool := String.prefix prefix s.

(** [strings.Index(s, sep)]: position of the first instance of [sep];
    Go's [-1] is [None]. *)
Fixpoint Index (s sep : string) : option nat :=
  if String.prefix sep s then Some 0
  else match s with
       | EmptyString => None
       | String _ s' => option_map S (Index s' sep)
       end.

(** [s[:m]] and [s[m:]]. *)
Fixpoint take (m : nat) (s : string) : string :=
  match m, s with
  | S m', String c s' => String c (take m' s')
  | _, _ => EmptyString
  end.

Fixpoint drop (m : nat) (s : string) : string :=
  match m, s with
  | S m', String _ s' => drop m' s'
  | _, _ => s
  end.

(** The loop of [genSplit]: at most [k] cuts, the rest is the last
    piece. *)
Fixpoint split_loop (sep : string) (k : nat) (s : string) : list string :=
  match k with
  | 0 => [s]
  | S k' =>
      match Index s sep with
      | None => [s]
      | Some m => take m s :: split_loop sep k' (drop (m + String.length sep) s)
      end
  end.

(** The empty separator explodes the string into its characters (bytes
    here; Go explodes into UTF-8 sequences). *)
Fixpoint explode (k : nat) (s : string) : list string :=
  match k, s with
  | _, EmptyString => []
  | 0, _ => [s]
  | S k', String c s' =>
      match s' with
      | EmptyString => [s]
      | _ => String c EmptyString :: explode k' s'
      end
  end.

(** [strings.SplitN(s, sep, n)]: [n = 0] gives nil, [n < 0] all
    substrings, [n > 0] at most [n] substrings, the last one being the
    unsplit remainder. *)
Definition SplitN (s sep : string) (n : Z) : list string :=
  if (n =? 0)%Z then []
  else
    let cap := S (String.length s) in
    let n' := if (n <? 0)%Z then cap else Nat.min (Z.to_nat n) cap in
    match sep with
    | EmptyString => explode (n' - 1) s
    | _ => split_loop sep (n' - 1) s
    end.

End Strings.

(** The first occurrence of a character: [cut_at c s = Some (a, b)] when
    [s = a ++ c :: b] and [c] does not occur in [a].  With [":"] it
    specifies what [SplitN s ":" 2] computes. *)
Fixpoint cut_at (sep : ascii) (s : string) : option (string * string) :=
  match s with
  | EmptyString => None
  | String c s' =>
      if Ascii.eqb c sep then Some (EmptyString, s')
      else match cut_at sep s' with
           | Some (a, b) => Some (String c a, b)
           | None => None
           end
  end.

Definition cut (s : string) : option (string * string) := cut_at ":"%char s.

Fixpoint has_colon (s : string) : bool :=
  match s with
  | EmptyString => false
  | String c s' => Ascii.eqb c ":"%char || has_colon s'
  end.

(** ** Errors, results and the monad of [diff.go]

    Every Go function of the file returns [(value, error)].  [Errorf] is an
    error built in [diff.go] itself with [fmt.Errorf]; [Foreign] is an error
    handed back by a collaborator; [NilDeref] is the run-time panic of
    dereferencing a nil [*string]. *)

Inductive error : Type :=
| Errorf (msg : string)
| Foreign (msg : string)
| NilDeref.

Inductive result (A : Type) : Type :=
| Ok (a : A)
| Err (e : error).
Arguments Ok {A} a.
Arguments Err {A} e.

(** One entry of the log per call that leaves [diff.go]. *)
Inductive Event : Type :=
| EvGetwd
| EvGetStringArray (flag : string)
| EvGetString (flag : string)
| EvFind (wd : string)
| EvNewExpander
| EvComponentPaths
| EvConstructBaseObj (paths : list string)
| EvExpand (jpath extcodes files : list string)
| EvExpandEnvCmdObjs (env : string) (files : list string) (wd : string)
| EvRestClientPool (env : string)
| EvNamespace
| EvRestClient (env : string)
| EvNamespaceFor
| EvRun.

(** Calls that build a client context (section 4.4 of the design). *)
Definition is_client_event (e : Event) : bool :=
  match e with
  | EvRestClientPool _ | EvNamespace | EvRestClient _ | EvNamespaceFor => true
  | _ => false
  end.

(** Calls that expand manifests (section 4.3). *)
Definition is_expansion_event (e : Event) : bool :=
  match e with
  | EvNewExpander | EvComponentPaths | EvConstructBaseObj _
  | EvExpand _ _ _ | EvExpandEnvCmdObjs _ _ _ => true
  | _ => false
  end.

Definition client_calls (l : list Event) : list Event := filter is_client_event l.
Definition expansion_calls (l : list Event) : list Event := filter is_expansion_event l.

Record State (W : Type) : Type := mkState { world : W; log : list Event }.
Arguments mkState {W} world log.
Arguments world {W} s.
Arguments log {W} s.

Definition M (W A : Type) : Type := State W -> result A * State W.

Definition ret {W A} (a : A) : M W A := fun s => (Ok a, s).
Definition fail {W A} (e : error) : M W A := fun s => (Err e, s).
Definition bind {W A B} (c : M W A) (k : A -> M W B) : M W B :=
  fun s => match c s with
           | (Ok a, s') => k a s'
           | (Err e, s') => (Err e, s')
           end.

(** A call of a collaborator: it may change the world, and it is logged. *)
Definition call {W A} (ev : Event) (op : W -> result A * W) : M W A :=
  fun s => let (r, w') := op (world s) in (r, mkState w' (log s ++ [ev])).

(** [*p] for [p : *string]. *)
Definition deref {W} (p : option string) : M W string :=
  match p with
  | Some v => ret v
  | None => fail NilDeref
  end.

Declare Scope go_scope.
Delimit Scope go_scope with go.
Notation "x <- c ;; k" := (bind c (fun x => k))
  (at level 61, c at next level, right associativity) : go_scope.
Notation "' pat <- c ;; k" := (bind c (fun x => match x with pat => k end))
  (at level 61, pat pattern, c at next level, right associativity) : go_scope.
Local Open Scope go_scope.

(** ** The data of [kubecfg] that [diff.go] fills in *)

Section Targets.
Variables Unstructured ClientPool Discovery : Type.

(** [kubecfg.Client]. *)
Record Client : Type := mkClient {
  Client_Name : string;
  Client_APIObjects : list Unstructured;
  Client_ClientPool : ClientPool;
  Client_Discovery : Discovery;
  Client_Namespace : string
}.

(** [kubecfg.LocalEnv]. *)
Record LocalEnv : Type := mkLocalEnv {
  LocalEnv_Name : string;
  LocalEnv_APIObjects : list Unstructured
}.

(** [kubecfg.DiffCmd]: the three structs that implement the interface,
    each with its [DiffStrategy]. *)
Inductive DiffCmd : Type :=
| DiffRemoteCmd (DiffStrategy : string) (c : Client)
| DiffLocalCmd (DiffStrategy : string) (Env1 Env2 : LocalEnv)
| DiffRemotesCmd (DiffStrategy : string) (ClientA ClientB : Client).

Definition DiffStrategy_of (c : DiffCmd) : string :=
  match c with
  | DiffRemoteCmd d _ | DiffLocalCmd d _ _ | DiffRemotesCmd d _ _ => d
  end.
End Targets.

Arguments mkClient {Unstructured ClientPool Discovery}.
Arguments Client_Name {Unstructured ClientPool Discovery} c.
Arguments Client_APIObjects {Unstructured ClientPool Discovery} c.
Arguments Client_ClientPool {Unstructured ClientPool Discovery} c.
Arguments Client_Discovery {Unstructured ClientPool Discovery} c.
Arguments Client_Namespace {Unstructured ClientPool Discovery} c.
Arguments mkLocalEnv {Unstructured}.
Arguments LocalEnv_Name {Unstructured} l.
Arguments LocalEnv_APIObjects {Unstructured} l.
Arguments DiffRemoteCmd {Unstructured ClientPool Discovery}.
Arguments DiffLocalCmd {Unstructured ClientPool Discovery}.
Arguments DiffRemotesCmd {Unstructured ClientPool Discovery}.
Arguments DiffStrategy_of {Unstructured ClientPool Discovery} c.

(** Which struct a target is. *)
Inductive Shape : Type := IsDiffRemoteCmd | IsDiffLocalCmd | IsDiffRemotesCmd.

Definition shape {U P D} (c : DiffCmd U P D) : Shape :=
  match c with
  | DiffRemoteCmd _ _ => IsDiffRemoteCmd
  | DiffLocalCmd _ _ _ => IsDiffLocalCmd
  | DiffRemotesCmd _ _ _ => IsDiffRemotesCmd
  end.

(** [template.Expander]: the two fields [diff.go] writes, and the others. *)
Record Expander (Rest : Type) : Type := mkExpander {
  FlagJpath : list string;
  ExtCodes : list string;
  Expander_rest : Rest
}.
Arguments mkExpander {Rest}.
Arguments FlagJpath {Rest} e.
Arguments ExtCodes {Rest} e.
Arguments Expander_rest {Rest} e.

(** What [manager.LibPaths(env)] returns. *)
Record Paths : Type := mkPaths {
  libPath : string;
  vendorPath : string;
  envLibPath : string;
  envComponentPath : string;
  envParamsPath : string
}.

Definition AbsPath : Type := string.

(** ** The collaborators

    Everything [diff.go] calls and does not define.  The fallible ones act
    on the world; [LibPaths], [importParams] and [UsageString] return no
    error and are functions. *)
Record Collaborators : Type := {
  World : Type;
  Command : Type;          (* *cobra.Command, with its flag set *)
  Manager : Type;          (* metadata.Manager *)
  Unstructured : Type;     (* *unstructured.Unstructured *)
  ClientPool : Type;       (* dynamic.ClientPool *)
  Discovery : Type;        (* discovery.DiscoveryInterface *)
  ExpanderRest : Type;
  flagComponent : string;
  UsageString : Command -> string;
  Getwd : World -> result string * World;
  GetStringArray : Command -> string -> World -> result (list string) * World;
  GetString : Command -> string -> World -> result string * World;
  Find : AbsPath -> World -> result Manager * World;
  LibPaths : Manager -> string -> Paths;
  ComponentPaths : Manager -> World -> result (list string) * World;
  newExpander : Command -> World -> result (Expander ExpanderRest) * World;
  constructBaseObj : list string -> list string -> World -> result string * World;
  importParams : string -> string;
  Expand : Expander ExpanderRest -> list string -> World ->
           result (list Unstructured) * World;
  expandEnvCmdObjs : Command -> string -> list string -> AbsPath -> World ->
                     result (list Unstructured) * World;
  restClientPool : Command -> string -> World -> result (ClientPool * Discovery) * World;
  namespace : World -> result string * World;
  restClient : Command -> string -> World -> result (ClientPool * Discovery) * World;
  namespaceFor : World -> result string * World;
  Run : DiffCmd Unstructured ClientPool Discovery -> World -> result unit * World
}.

(** ** [cmd/diff.go] *)

Definition flagDiffStrategy : string := "diff-strategy".

(** The constants of [initDiffCmd]. *)
Definition remote : string := "remote".
Definition local : string := "local".

Definition nl : string := String (ascii_of_nat 10) EmptyString.

(** The five messages that [diff.go] formats itself. *)
Definition msgNoArgument (usage : string) : string :=
  "'diff' requires at least one argument, that is the name of the environment"
  ++ nl ++ nl ++ usage.
Definition msgTooManyArguments (usage : string) : string :=
  "'diff' takes at most two arguments, that are the name of the environments"
  ++ nl ++ nl ++ usage.
Definition msgPrefix : string :=
  "<env> must be prefaced by " ++ local ++ ": or " ++ remote ++ ":, ex: "
  ++ remote ++ ":us-west/prod".
Definition msgFilesUnsupported : string :=
  "'-f' is not currently supported for multiple environments".
Definition msgSinglePrefix : string :=
  "single <env> argument with prefix 'local:' or 'remote:' not allowed".

(** The condition of the validation in [initDiffCmd], on the two split
    locators.  [||] and [&&] are lazy in Go as here, so [env[0]] is read
    only when both slices have two elements. *)
Definition invalid (env1 env2 : list string) : bool :=
  (length env1 <? 2)%nat || (length env2 <? 2)%nat
  || (negb (nth 0 env1 "" =? local) && negb (nth 0 env1 "" =? remote))
  || (negb (nth 0 env2 "" =? local) && negb (nth 0 env2 "" =? remote)).

Section DiffGo.
Variable X : Collaborators.

(** The type of a resolved target, [kubecfg.DiffCmd]. *)
Definition Target : Type := DiffCmd (Unstructured X) (ClientPool X) (Discovery X).

(** [expandEnvObjs] finds and expands templates for an environment. *)
Definition expandEnvObjs (cmd : Command X) (env : string) (manager : Manager X)
  : M (World X) (list (Unstructured X)) :=
  expander <- call EvNewExpander (newExpander X cmd) ;;
  let p := LibPaths X manager env in
  componentPaths <- call EvComponentPaths (ComponentPaths X manager) ;;
  baseObj <- call (EvConstructBaseObj componentPaths)
                  (constructBaseObj X componentPaths []) ;;
  let params := importParams X (envParamsPath p) in
  let expander :=
    mkExpander ([libPath p; vendorPath p; envLibPath p] ++ FlagJpath expander)
               (ExtCodes expander) (Expander_rest expander) in
  let expander :=
    mkExpander (FlagJpath expander)
               ([baseObj; params] ++ ExtCodes expander) (Expander_rest expander) in
  let envFiles := [envComponentPath p] in
  call (EvExpand (FlagJpath expander) (ExtCodes expander) envFiles)
       (Expand X expander envFiles).

(** [setupClientConfig]: the loading rules and the overrides are built in
    memory; [restClient] and [namespaceFor] do the work. *)
Definition setupClientConfig (env : string) (cmd : Command X)
  : M (World X) (ClientPool X * Discovery X * string) :=
  '(clientPool, discovery) <- call (EvRestClient env) (restClient X cmd env) ;;
  namespace <- call EvNamespaceFor (namespaceFor X) ;;
  ret (clientPool, discovery, namespace).

(** [initDiffSingleEnv] sets up configurations for diffing using one
    environment. *)
Definition initDiffSingleEnv (env diffStrategy : string) (files : list string)
    (cmd : Command X) (wd : AbsPath) : M (World X) Target :=
  if Strings.HasPrefix env "remote:" || Strings.HasPrefix env "local:" then
    fail (Errorf msgSinglePrefix)
  else
    objs <- call (EvExpandEnvCmdObjs env files wd) (expandEnvCmdObjs X cmd env files wd) ;;
    '(pool, disc) <- call (EvRestClientPool env) (restClientPool X cmd env) ;;
    ns <- call EvNamespace (namespace X) ;;
    ret (DiffRemoteCmd diffStrategy (mkClient "" objs pool disc ns)).

(** [initDiffLocalCmd] sets up configurations for diffing between two sets
    of expanded Kubernetes objects locally. *)
Definition initDiffLocalCmd (env1 env2 diffStrategy : string) (cmd : Command X)
    (m : Manager X) : M (World X) Target :=
  objs1 <- expandEnvObjs cmd env1 m ;;
  objs2 <- expandEnvObjs cmd env2 m ;;
  ret (DiffLocalCmd diffStrategy (mkLocalEnv env1 objs1) (mkLocalEnv env2 objs2)).

(** [initDiffRemotesCmd] sets up configurations for diffing between objects
    on two remote clusters. *)
Definition initDiffRemotesCmd (env1 env2 diffStrategy : string) (cmd : Command X)
    (m : Manager X) : M (World X) Target :=
  objsA <- expandEnvObjs cmd env1 m ;;
  objsB <- expandEnvObjs cmd env2 m ;;
  '(poolA, discA, nsA) <- setupClientConfig env1 cmd ;;
  '(poolB, discB, nsB) <- setupClientConfig env2 cmd ;;
  ret (DiffRemotesCmd diffStrategy
         (mkClient env1 objsA poolA discA nsA)
         (mkClient env2 objsB poolB discB nsB)).

(** [initDiffRemoteCmd] sets up configurations for diffing between local
    objects and objects on a remote cluster. *)
Definition initDiffRemoteCmd (localEnv remoteEnv diffStrategy : string)
    (cmd : Command X) (m : Manager X) : M (World X) Target :=
  objs <- expandEnvObjs cmd localEnv m ;;
  '(pool, disc, ns) <- setupClientConfig remoteEnv cmd ;;
  ret (DiffRemoteCmd diffStrategy (mkClient "" objs pool disc ns)).

Definition initDiffCmd (cmd : Command X) (wd : AbsPath) (envFq1 envFq2 : option string)
    (files : list string) (diffStrategy : string) : M (World X) Target :=
  match envFq2 with
  | None =>
      e1 <- deref envFq1 ;;
      initDiffSingleEnv e1 diffStrategy files cmd wd
  | Some fq2 =>
      fq1 <- deref envFq1 ;;
      (* expect envs to be of the format local:myenv or remote:myenv *)
      let env1 := Strings.SplitN fq1 ":" 2 in
      let env2 := Strings.SplitN fq2 ":" 2 in
      (* validation *)
      if invalid env1 env2 then fail (Errorf msgPrefix)
      else if (0 <? length files)%nat then fail (Errorf msgFilesUnsupported)
      else
        manager <- call (EvFind wd) (Find X wd) ;;
        if (nth 0 env1 "" =? local) && (nth 0 env2 "" =? local) then
          initDiffLocalCmd (nth 1 env1 "") (nth 1 env2 "") diffStrategy cmd manager
        else if (nth 0 env1 "" =? remote) && (nth 0 env2 "" =? remote) then
          initDiffRemotesCmd (nth 1 env1 "") (nth 1 env2 "") diffStrategy cmd manager
        else
          let localEnv := nth 1 env1 "" in
          let remoteEnv := nth 1 env2 "" in
          let '(localEnv, remoteEnv) :=
            if nth 0 env1 "" =? remote
            then (nth 1 env2 "", nth 1 env1 "")
            else (localEnv, remoteEnv) in
          initDiffRemoteCmd localEnv remoteEnv diffStrategy cmd manager
  end.

(** [diffCmd.RunE]. *)
Definition RunE (cmd : Command X) (args : list string) : M (World X) unit :=
  if (length args =? 0)%nat then fail (Errorf (msgNoArgument (UsageString X cmd)))
  else if (2 <? length args)%nat then fail (Errorf (msgTooManyArguments (UsageString X cmd)))
  else
    cwd <- call EvGetwd (Getwd X) ;;
    let wd : AbsPath := cwd in
    componentNames <- call (EvGetStringArray (flagComponent X))
                           (GetStringArray X cmd (flagComponent X)) ;;
    let env1 := if (0 <? length args)%nat then nth_error args 0 else None in
    let env2 := if (1 <? length args)%nat then nth_error args 1 else None in
    diffStrategy <- call (EvGetString flagDiffStrategy)
                         (GetString X cmd flagDiffStrategy) ;;
    c <- initDiffCmd cmd wd env1 env2 componentNames diffStrategy ;;
    call EvRun (Run X c).
End DiffGo.

(** ** The notions of the design document *)

(** A locator is [("local"|"remote") ":" name] in the two-argument form. *)
Inductive Kind : Type := Local | Remote.

Definition kind_prefix (k : Kind) : string :=
  match k with Local => local | Remote => remote end.

Definition locator (k : Kind) (name : string) : string :=
  kind_prefix k ++ ":" ++ name.

(** A raw locator is qualified when it starts with [local:] or [remote:]. *)
Definition qualified (raw : string) : bool :=
  Strings.HasPrefix raw "local:" || Strings.HasPrefix raw "remote:".

(** The dispatch table of section 4.2, on the struct that is built... *)
Definition table (k1 k2 : Kind) : Shape :=
  match k1, k2 with
  | Local, Local => IsDiffLocalCmd
  | Remote, Remote => IsDiffRemotesCmd
  | _, _ => IsDiffRemoteCmd
  end.

(** ... and on the builder that is run: the locator marked local gives the
    manifest side and the one marked remote the client side. *)
Definition spec_dispatch (X : Collaborators) (k1 : Kind) (n1 : string) (k2 : Kind)
    (n2 : string) (diffStrategy : string) (cmd : Command X) (m : Manager X)
  : M (World X) (Target X) :=
  match k1, k2 with
  | Local, Local => initDiffLocalCmd X n1 n2 diffStrategy cmd m
  | Remote, Remote => initDiffRemotesCmd X n1 n2 diffStrategy cmd m
  | Local, Remote => initDiffRemoteCmd X n1 n2 diffStrategy cmd m
  | Remote, Local => initDiffRemoteCmd X n2 n1 diffStrategy cmd m
  end.




Definition supplied_files (l : list Event) : list (list string) :=
  flat_map (fun e => match e with EvExpand _ _ files => [files] | _ => [] end) l.


(** Every computation of [diff.go] only appends to the log; [emits P c]
    says that all it appends satisfies [P]. *)
Definition emits {W A} (P : Event -> bool) (c : M W A) : Prop :=
  forall s, exists evs, log (snd (c s)) = (log s ++ evs)%list /\ forallb P evs = true.

Definition any_event (e : Event) : bool := true.

Definition not_client_event (e : Event) : bool := negb (is_client_event e).



(** The calls that resolving a target may make: the metadata lookup, the
    expansion calls and the client calls. *)
Definition is_resolver_event (e : Event) : bool :=
  match e with
  | EvFind _ => true
  | _ => is_expansion_event e || is_client_event e
  end.

(** A computation is phased when what it appends to the log is a run of
    calls that are not client calls followed by a run of client calls. *)
Definition phased {W A} (c : M W A) : Prop :=
  forall s, exists pre post,
    log (snd (c s)) = (log s ++ pre ++ post)%list
    /\ forallb not_client_event pre = true
    /\ forallb is_client_event post = true.

(** The [Name] fields of a target, in the order of its fields. *)
Definition names_recorded {U P D} (c : DiffCmd U P D) : list string :=
  match c with
  | DiffRemoteCmd _ cl => [Client_Name cl]
  | DiffLocalCmd _ e1 e2 => [LocalEnv_Name e1; LocalEnv_Name e2]
  | DiffRemotesCmd _ a b => [Client_Name a; Client_Name b]
  end.

(** ** A small world to run the code in

    An application rooted at [/app], laid out as ksonnet does; the world
    counts the calls made.  The command carries the caller's [--jpath] and
    [--ext-code] flags.  The environment [broken] has a template that does
    not evaluate. *)

Definition testPaths (env : string) : Paths :=
  mkPaths "/app/lib" "/app/vendor"
          ("/app/environments/" ++ env ++ "/.metadata")
          ("/app/environments/" ++ env ++ "/main.jsonnet")
          ("/app/environments/" ++ env ++ "/params.libsonnet").

Definition testExpand (files : list string) (w : nat) : result (list string) * nat :=
  if list_eq_dec string_dec files ["/app/environments/broken/main.jsonnet"]
  then (Err (Foreign "RUNTIME ERROR: broken template"), S w)
  else (Ok (map (fun f => "objects of " ++ f) files), S w).

Definition TestWorld : Collaborators := {|
  World := nat;
  Command := list string * list string;
  Manager := unit;
  Unstructured := string;
  ClientPool := string;
  Discovery := string;
  ExpanderRest := unit;
  flagComponent := "component";
  UsageString := fun _ => "Usage: ks diff <location1:env1> [location2:env2] [-c <component-name>]";
  Getwd := fun w => (Ok "/app", S w);
  GetStringArray := fun _ _ w => (Ok [], S w);
  GetString := fun _ _ w => (Ok "subset", S w);
  Find := fun _ w => (Ok tt, S w);
  LibPaths := fun _ env => testPaths env;
  ComponentPaths := fun _ w => (Ok ["/app/components/redis.jsonnet"], S w);
  newExpander := fun cmd w => (Ok (mkExpander (fst cmd) (snd cmd) tt), S w);
  constructBaseObj := fun _ _ w => (Ok "__ksonnet/components={redis: import 'redis.jsonnet'}", S w);
  importParams := fun path => "__ksonnet/params=import '" ++ path ++ "'";
  Expand := fun _ files w => testExpand files w;
  expandEnvCmdObjs := fun _ env _ _ w => testExpand [envComponentPath (testPaths env)] w;
  restClientPool := fun _ env w => (Ok ("pool of " ++ env, "discovery of " ++ env), S w);
  namespace := fun w => (Ok "default", S w);
  restClient := fun _ env w => (Ok ("pool of " ++ env, "discovery of " ++ env), S w);
  namespaceFor := fun w => (Ok "default", S w);
  Run := fun _ w => (Ok tt, S w)
|}.

Definition testCmd : Command TestWorld :=
  (["/caller/lib"], ["__ksonnet/params={replicas: 9}"]).

Definition s0 : State (World TestWorld) := mkState 0 [].

(** The same world with faults: a call whose log entry satisfies [faulty]
    fails. *)
Definition faultOr {A} (faulty : Event -> bool) (ev : Event) (ok : A) (w : nat)
  : result A * nat :=
  if faulty ev then (Err (Foreign "fault"), S w) else (Ok ok, S w).

Definition FaultyWorld (faulty : Event -> bool) : Collaborators := {|
  World := nat;
  Command := list string * list string;
  Manager := unit;
  Unstructured := string;
  ClientPool := string;
  Discovery := string;
  ExpanderRest := unit;
  flagComponent := "component";
  UsageString := fun _ => "Usage: ks diff <location1:env1> [location2:env2] [-c <component-name>]";
  Getwd := faultOr faulty EvGetwd "/app";
  GetStringArray := fun _ flag => faultOr faulty (EvGetStringArray flag) [];
  GetString := fun _ flag => faultOr faulty (EvGetString flag) "subset";
  Find := fun wd => faultOr faulty (EvFind wd) tt;
  LibPaths := fun _ env => testPaths env;
  ComponentPaths := fun _ => faultOr faulty EvComponentPaths ["/app/components/redis.jsonnet"];
  newExpander := fun cmd => faultOr faulty EvNewExpander (mkExpander (fst cmd) (snd cmd) tt);
  constructBaseObj := fun paths _ =>
    faultOr faulty (EvConstructBaseObj paths)
            "__ksonnet/components={redis: import 'redis.jsonnet'}";
  importParams := fun path => "__ksonnet/params=import '" ++ path ++ "'";
  Expand := fun e files =>
    faultOr faulty (EvExpand (FlagJpath e) (ExtCodes e) files)
            (map (fun f => "objects of " ++ f) files);
  expandEnvCmdObjs := fun _ env files wd =>
    faultOr faulty (EvExpandEnvCmdObjs env files wd)
            ["objects of " ++ envComponentPath (testPaths env)];
  restClientPool := fun _ env =>
    faultOr faulty (EvRestClientPool env) ("pool of " ++ env, "discovery of " ++ env);
  namespace := faultOr faulty EvNamespace "default";
  restClient := fun _ env =>
    faultOr faulty (EvRestClient env) ("pool of " ++ env, "discovery of " ++ env);
  namespaceFor := faultOr faulty EvNamespaceFor "default";
  Run := fun _ => faultOr faulty EvRun tt
|}.


(** * Proofs *)

(** ** Strings *)

Example SplitN_qualified : Strings.SplitN "local:us-west/dev" ":" 2 = ["local"; "us-west/dev"].
Proof. reflexivity. Qed.

Example SplitN_bare : Strings.SplitN "dev" ":" 2 = ["dev"].
Proof. reflexivity. Qed.

Example SplitN_two_colons : Strings.SplitN "remote:a:b" ":" 2 = ["remote"; "a:b"].
Proof. reflexivity. Qed.

Example SplitN_empty : Strings.SplitN "" ":" 2 = [""].
Proof. reflexivity. Qed.

Example SplitN_all : Strings.SplitN "a:b:c" ":" (-1) = ["a"; "b"; "c"].
Proof. reflexivity. Qed.

Lemma prefix_colon_cons (c : ascii) (s : string) :
  String.prefix ":" (String c s) = Ascii.eqb c ":"%char.
Proof.
  cbn [String.prefix].
  destruct (ascii_dec ":"%char c) as [<- | n].
  - now destruct s.
  - symmetry. apply Ascii.eqb_neq. congruence.
Qed.

Lemma Index_cut_some (s a b : string) :
  cut s = Some (a, b) ->
  Strings.Index s ":" = Some (String.length a)
  /\ Strings.take (String.length a) s = a
  /\ Strings.drop (String.length a + 1) s = b.
Proof.
  revert a b. induction s as [| c s IH]; intros a b H; [discriminate |].
  unfold cut in *. cbn [cut_at] in H.
  cbn [Strings.Index]. rewrite prefix_colon_cons.
  destruct (Ascii.eqb c ":"%char) eqn:E.
  - injection H as <- <-. now cbn.
  - destruct (cut_at ":"%char s) as [[a' b'] |] eqn:C; [| discriminate].
    injection H as <- <-.
    destruct (IH a' b' eq_refl) as (I & T & D).
    rewrite I. cbn. now rewrite T, D.
Qed.

Lemma Index_cut_none (s : string) :
  cut s = None -> Strings.Index s ":" = None.
Proof.
  induction s as [| c s IH]; intros H; [reflexivity |].
  unfold cut in *. cbn [cut_at] in H.
  cbn [Strings.Index]. rewrite prefix_colon_cons.
  destruct (Ascii.eqb c ":"%char); [discriminate |].
  destruct (cut_at ":"%char s) as [[a' b'] |]; [discriminate |].
  now rewrite IH.
Qed.

(** [SplitN s ":" 2] is the cut at the first colon. *)
Lemma SplitN_colon (s : string) :
  Strings.SplitN s ":" 2 =
  match cut s with
  | Some (a, b) => [a; b]
  | None => [s]
  end.
Proof.
  destruct s as [| c s]; [reflexivity |].
  unfold Strings.SplitN.
  change ((2 =? 0)%Z) with false. change ((2 <? 0)%Z) with false.
  cbv iota. change (Z.to_nat 2) with 2%nat.
  cbn [String.length Nat.min Nat.sub Strings.split_loop].
  destruct (cut (String c s)) as [[a b] |] eqn:C.
  - destruct (Index_cut_some _ _ _ C) as (I & T & D).
    rewrite I. cbn [Strings.split_loop String.length].
    now rewrite T, D.
  - now rewrite (Index_cut_none _ C).
Qed.

Lemma cut_locator (a b : string) :
  has_colon a = false -> cut (a ++ ":" ++ b) = Some (a, b).
Proof.
  unfold cut. induction a as [| c a IH]; intros H; [reflexivity |].
  cbn in H. apply orb_false_iff in H as [E H].
  cbn [String.append cut_at]. rewrite E.
  cbn [String.append] in IH. now rewrite (IH H).
Qed.

Lemma cut_some_inv (s a b : string) :
  cut s = Some (a, b) -> s = a ++ ":" ++ b /\ has_colon a = false.
Proof.
  unfold cut. revert a b. induction s as [| c s IH]; intros a b H; [discriminate |].
  cbn [cut_at] in H. destruct (Ascii.eqb c ":"%char) eqn:E.
  - injection H as <- <-. apply Ascii.eqb_eq in E. now subst c.
  - destruct (cut_at ":"%char s) as [[a' b'] |]; [| discriminate].
    injection H as <- <-. destruct (IH _ _ eq_refl) as [-> Hc].
    split; [reflexivity |]. cbn. now rewrite E.
Qed.

Lemma cut_none_iff (s : string) : cut s = None <-> has_colon s = false.
Proof.
  unfold cut. induction s as [| c s IH]; [easy |].
  cbn. destruct (Ascii.eqb c ":"%char); cbn; [easy |].
  destruct (cut_at ":"%char s) as [[a b] |]; [| tauto].
  split; [discriminate |]. intros H. apply IH in H. discriminate.
Qed.

(** A prefix that ends at the first colon. *)
Lemma prefix_cut (p s : string) :
  has_colon p = false ->
  String.prefix (p ++ ":") s =
  match cut s with
  | Some (a, _) => a =? p
  | None => false
  end.
Proof.
  unfold cut. revert s. induction p as [| x p IH]; intros s H.
  - destruct s as [| c s]; [reflexivity |].
    cbn [String.append]. rewrite prefix_colon_cons. cbn [cut_at].
    destruct (Ascii.eqb c ":"%char); [reflexivity |].
    now destruct (cut_at ":"%char s) as [[a b] |].
  - cbn in H. apply orb_false_iff in H as [E H].
    destruct s as [| c s]; [reflexivity |].
    cbn [String.append String.prefix cut_at].
    destruct (ascii_dec x c) as [<- | n].
    + rewrite E, (IH s H).
      destruct (cut_at ":"%char s) as [[a b] |]; [| reflexivity].
      cbn [String.eqb]. now rewrite Ascii.eqb_refl.
    + destruct (Ascii.eqb c ":"%char); [reflexivity |].
      destruct (cut_at ":"%char s) as [[a b] |]; [| reflexivity].
      cbn [String.eqb]. apply not_eq_sym in n. apply Ascii.eqb_neq in n. now rewrite n.
Qed.

(** Being qualified is having [local] or [remote] before the first colon. *)
Lemma qualified_cut (s : string) :
  qualified s =
  match cut s with
  | Some (a, _) => (a =? local) || (a =? remote)
  | None => false
  end.
Proof.
  unfold qualified, Strings.HasPrefix.
  change "local:" with (local ++ ":"). change "remote:" with (remote ++ ":").
  rewrite !prefix_cut by reflexivity.
  now destruct (cut s) as [[a b] |].
Qed.

(** The validation of [initDiffCmd] rejects exactly the pairs in which a
    locator is not qualified. *)
Lemma invalid_SplitN (a b : string) :
  invalid (Strings.SplitN a ":" 2) (Strings.SplitN b ":" 2)
  = negb (qualified a && qualified b).
Proof.
  rewrite !SplitN_colon, !qualified_cut. unfold invalid.
  destruct (cut a) as [[a1 a2] |], (cut b) as [[b1 b2] |]; cbn;
    try reflexivity.
  - destruct (a1 =? local), (a1 =? remote), (b1 =? local), (b1 =? remote); reflexivity.
  - destruct (a1 =? local), (a1 =? remote); reflexivity.
Qed.

Lemma qualified_locator (k : Kind) (n : string) : qualified (locator k n) = true.
Proof.
  rewrite qualified_cut. unfold locator.
  rewrite cut_locator by now destruct k. now destruct k.
Qed.

Lemma SplitN_locator (k : Kind) (n : string) :
  Strings.SplitN (locator k n) ":" 2 = [kind_prefix k; n].
Proof.
  rewrite SplitN_colon. unfold locator.
  now rewrite cut_locator by now destruct k.
Qed.

Lemma qualified_inv (s : string) :
  qualified s = true -> exists k n, s = locator k n.
Proof.
  rewrite qualified_cut. destruct (cut s) as [[a b] |] eqn:C; [| discriminate].
  intros H. apply cut_some_inv in C as [-> _].
  apply orb_true_iff in H as [H | H]; apply String.eqb_eq in H; subst a.
  - now exists Local, b.
  - now exists Remote, b.
Qed.

(** ** The log *)

Lemma emits_ret {W A} (P : Event -> bool) (a : A) : emits P (@ret W A a).
Proof. intros s. exists []. now rewrite app_nil_r. Qed.

Lemma emits_fail {W A} (P : Event -> bool) (e : error) : emits P (@fail W A e).
Proof. intros s. exists []. now rewrite app_nil_r. Qed.

Lemma emits_call {W A} (P : Event -> bool) (ev : Event) (op : W -> result A * W) :
  P ev = true -> emits P (call ev op).
Proof.
  intros H s. exists [ev]. unfold call.
  destruct (op (world s)) as [r w]. cbn. now rewrite H.
Qed.

Lemma emits_bind {W A B} (P : Event -> bool) (c : M W A) (k : A -> M W B) :
  emits P c -> (forall a, emits P (k a)) -> emits P (bind c k).
Proof.
  intros Hc Hk s. unfold bind.
  destruct (Hc s) as (evs & E & F).
  destruct (c s) as [[a | e] s1]; cbn in E.
  - destruct (Hk a s1) as (evs' & E' & F').
    exists (evs ++ evs')%list. rewrite E', E, app_assoc.
    now rewrite forallb_app, F, F'.
  - now exists evs.
Qed.

Lemma emits_weaken {W A} (P Q : Event -> bool) (c : M W A) :
  (forall e, P e = true -> Q e = true) -> emits P c -> emits Q c.
Proof.
  intros H Hc s. destruct (Hc s) as (evs & E & F).
  exists evs. split; [exact E |].
  rewrite forallb_forall in *. auto.
Qed.

Lemma emits_deref {W} (P : Event -> bool) (p : option string) : emits P (@deref W p).
Proof. destruct p; [apply emits_ret | apply emits_fail]. Qed.

Create HintDb emits.
#[export] Hint Resolve emits_ret emits_fail emits_bind emits_deref : emits.
#[export] Hint Extern 1 (emits _ (call _ _)) => apply emits_call; reflexivity : emits.
#[export] Hint Extern 2 (emits _ (match ?x with _ => _ end)) => destruct x : emits.
#[export] Hint Extern 2 (emits _ (if ?x then _ else _)) => destruct x : emits.

Lemma expandEnvObjs_emits X cmd env m :
  emits is_expansion_event (expandEnvObjs X cmd env m).
Proof. unfold expandEnvObjs. auto 10 with emits. Qed.

Lemma setupClientConfig_emits X env cmd :
  emits is_client_event (setupClientConfig X env cmd).
Proof.
  unfold setupClientConfig.
  apply emits_bind; [auto with emits |]. intros [pool disc].
  auto 10 with emits.
Qed.

Lemma filter_emitted (P Q : Event -> bool) (l evs : list Event) :
  (forall e, P e = true -> Q e = false) ->
  forallb P evs = true -> filter Q (l ++ evs) = filter Q l.
Proof.
  intros H F. rewrite filter_app.
  replace (filter Q evs) with (@nil Event); [now rewrite app_nil_r |].
  induction evs as [| e evs IH]; [reflexivity |].
  cbn in F. apply andb_true_iff in F as [Fe F].
  cbn. now rewrite (H e Fe), <- (IH F).
Qed.

(** Expanding manifests makes no call of the client-context builder. *)
Lemma expandEnvObjs_client_calls X cmd env m s :
  client_calls (log (snd (expandEnvObjs X cmd env m s))) = client_calls (log s).
Proof.
  destruct (expandEnvObjs_emits X cmd env m s) as (evs & -> & F).
  apply (filter_emitted is_expansion_event); [| exact F].
  now intros [].
Qed.

(** Building a client context makes no call of the expander. *)
Lemma setupClientConfig_expansion_calls X env cmd s :
  expansion_calls (log (snd (setupClientConfig X env cmd s))) = expansion_calls (log s).
Proof.
  destruct (setupClientConfig_emits X env cmd s) as (evs & -> & F).
  apply (filter_emitted is_client_event); [| exact F].
  now intros [].
Qed.

Lemma any_event_of (P : Event -> bool) {W A} (c : M W A) : emits P c -> emits any_event c.
Proof. now apply emits_weaken. Qed.

Lemma initDiffSingleEnv_emits X env strat files cmd wd :
  emits any_event (initDiffSingleEnv X env strat files cmd wd).
Proof.
  unfold initDiffSingleEnv.
  destruct (_ || _); [apply emits_fail |].
  apply emits_bind; [auto with emits |]; intros objs.
  apply emits_bind; [auto with emits |]; intros [pool disc].
  auto with emits.
Qed.

Lemma initDiffLocalCmd_emits X e1 e2 strat cmd m :
  emits any_event (initDiffLocalCmd X e1 e2 strat cmd m).
Proof.
  unfold initDiffLocalCmd.
  repeat (apply emits_bind;
          [apply (any_event_of _ _ (expandEnvObjs_emits _ _ _ _)) | intros ?]).
  apply emits_ret.
Qed.

Lemma initDiffRemotesCmd_emits X e1 e2 strat cmd m :
  emits any_event (initDiffRemotesCmd X e1 e2 strat cmd m).
Proof.
  unfold initDiffRemotesCmd.
  repeat (apply emits_bind;
          [apply (any_event_of _ _ (expandEnvObjs_emits _ _ _ _)) | intros ?]).
  repeat (apply emits_bind;
          [apply (any_event_of _ _ (setupClientConfig_emits _ _ _)) | intros [[? ?] ?]]).
  apply emits_ret.
Qed.

Lemma initDiffRemoteCmd_emits X l r strat cmd m :
  emits any_event (initDiffRemoteCmd X l r strat cmd m).
Proof.
  unfold initDiffRemoteCmd.
  apply emits_bind;
    [apply (any_event_of _ _ (expandEnvObjs_emits _ _ _ _)) | intros ?].
  apply emits_bind;
    [apply (any_event_of _ _ (setupClientConfig_emits _ _ _)) | intros [[? ?] ?]].
  apply emits_ret.
Qed.

Lemma initDiffCmd_emits X cmd wd fq1 fq2 files strat :
  emits any_event (initDiffCmd X cmd wd fq1 fq2 files strat).
Proof.
  unfold initDiffCmd. destruct fq2 as [fq2 |].
  - apply emits_bind; [apply emits_deref |]. intros a.
    destruct (invalid _ _); [apply emits_fail |].
    destruct (0 <? _)%nat; [apply emits_fail |].
    apply emits_bind; [auto with emits |]. intros m.
    destruct (_ && _); [apply initDiffLocalCmd_emits |].
    destruct (_ && _); [apply initDiffRemotesCmd_emits |].
    destruct (_ =? _); apply initDiffRemoteCmd_emits.
  - apply emits_bind; [apply emits_deref |]. intros a.
    apply initDiffSingleEnv_emits.
Qed.

(** ** The resolver on two locators *)

Section Resolver.
Variable X : Collaborators.
Variables (cmd : Command X) (wd : AbsPath) (diffStrategy : string).

(** A pair with an unqualified locator stops at the validation. *)
Lemma initDiffCmd_unqualified (a b : string) (files : list string) (s : State (World X)) :
  qualified a && qualified b = false ->
  initDiffCmd X cmd wd (Some a) (Some b) files diffStrategy s = (Err (Errorf msgPrefix), s).
Proof.
  intros H. unfold initDiffCmd. cbn [deref]. unfold bind, ret.
  now rewrite invalid_SplitN, H.
Qed.

(** Two qualified locators with a component filter stop at the filter. *)
Lemma initDiffCmd_filter (a b : string) (files : list string) (s : State (World X)) :
  qualified a && qualified b = true -> files <> [] ->
  initDiffCmd X cmd wd (Some a) (Some b) files diffStrategy s
  = (Err (Errorf msgFilesUnsupported), s).
Proof.
  intros H F. unfold initDiffCmd. cbn [deref]. unfold bind, ret.
  rewrite invalid_SplitN, H. cbn [negb].
  destruct files; [contradiction | reflexivity].
Qed.

(** Two qualified locators and no filter: the metadata lookup, then the
    builder of the dispatch table. *)
Lemma initDiffCmd_dispatch (k1 k2 : Kind) (n1 n2 : string) (s : State (World X)) :
  initDiffCmd X cmd wd (Some (locator k1 n1)) (Some (locator k2 n2)) [] diffStrategy s
  = (m <- call (EvFind wd) (Find X wd) ;;
     spec_dispatch X k1 n1 k2 n2 diffStrategy cmd m) s.
Proof.
  unfold initDiffCmd. cbn [deref]. unfold bind at 1, ret.
  rewrite invalid_SplitN, !qualified_locator, !SplitN_locator.
  cbn [negb andb length Nat.ltb Nat.leb nth].
  unfold bind. destruct (call (EvFind wd) (Find X wd) s) as [[m | e] s1]; [| reflexivity].
  now destruct k1, k2.
Qed.

End Resolver.

(** ** Argument errors *)

(** C6.  With two locators, as soon as one of them lacks the [local:] or
    [remote:] prefix, [initDiffCmd] returns the prefix error and has called
    nothing: the world and the log are as they were, so no metadata lookup,
    no expansion and no client context came before the failure. *)
Theorem two_locators_must_be_qualified (X : Collaborators) (cmd : Command X)
    (wd : AbsPath) (a b : string) (files : list string) (diffStrategy : string)
    (s : State (World X)) :
  qualified a = false \/ qualified b = false ->
  initDiffCmd X cmd wd (Some a) (Some b) files diffStrategy s
  = (Err (Errorf msgPrefix), s).
Proof.
  intros H. apply initDiffCmd_unqualified.
  destruct H as [H | H]; rewrite H; [reflexivity | apply andb_false_r].
Qed.

Lemma two_locators_must_be_qualified_witness :
  initDiffCmd TestWorld testCmd "/app" (Some "dev") (Some "remote:prod") [] "subset" s0
  = (Err (Errorf msgPrefix), s0)
  /\ initDiffCmd TestWorld testCmd "/app" (Some "local:dev") (Some "cluster:prod")
       ["redis"] "subset" s0
     = (Err (Errorf msgPrefix), s0).
Proof.
  split.
  - apply two_locators_must_be_qualified. left. reflexivity.
  - apply two_locators_must_be_qualified. right. reflexivity.
Defined.

(** C7, as the claim has it, fails: with a component filter and two
    locators of which one is not qualified, the error is the prefix error,
    since the validation of the locators comes first. *)
Lemma filter_with_unqualified_locators :
  ["redis"] <> @nil string
  /\ fst (initDiffCmd TestWorld testCmd "/app" (Some "dev") (Some "prod")
            ["redis"] "subset" s0)
     = Err (Errorf msgPrefix)
  /\ fst (initDiffCmd TestWorld testCmd "/app" (Some "dev") (Some "prod")
            ["redis"] "subset" s0)
     <> Err (Errorf msgFilesUnsupported).
Proof. split; [discriminate | split; [reflexivity | discriminate]]. Qed.

(** C7, amended.  With two qualified locators and a non-empty component
    filter, [initDiffCmd] returns the unsupported-filter error and has
    called nothing: no metadata lookup, no expansion, no client context. *)
Theorem filter_rejected_for_two_locators (X : Collaborators) (cmd : Command X)
    (wd : AbsPath) (a b : string) (files : list string) (diffStrategy : string)
    (s : State (World X)) :
  qualified a = true -> qualified b = true -> files <> [] ->
  initDiffCmd X cmd wd (Some a) (Some b) files diffStrategy s
  = (Err (Errorf msgFilesUnsupported), s).
Proof.
  intros Ha Hb F. apply initDiffCmd_filter; [| exact F].
  now rewrite Ha, Hb.
Qed.

Lemma filter_rejected_for_two_locators_witness :
  initDiffCmd TestWorld testCmd "/app" (Some "local:a") (Some "local:b")
    ["redis"] "subset" s0
  = (Err (Errorf msgFilesUnsupported), s0).
Proof.
  apply filter_rejected_for_two_locators; [reflexivity | reflexivity | discriminate].
Defined.

(** C5.  With one locator: a [local:] or [remote:] prefix gives the
    single-prefix error with nothing called; otherwise, when the three
    collaborators succeed, the target is a [DiffRemoteCmd] whose client has
    the objects expanded for that name and the pool, discovery and namespace
    built for that same name, and exactly these three calls were made. *)
Theorem single_locator_resolution (X : Collaborators) (cmd : Command X)
    (wd : AbsPath) (env : string) (files : list string) (diffStrategy : string)
    (s : State (World X)) :
  (qualified env = true ->
   initDiffCmd X cmd wd (Some env) None files diffStrategy s
   = (Err (Errorf msgSinglePrefix), s))
  /\ (qualified env = false ->
      forall objs w1 pool disc w2 ns w3,
        expandEnvCmdObjs X cmd env files wd (world s) = (Ok objs, w1) ->
        restClientPool X cmd env w1 = (Ok (pool, disc), w2) ->
        namespace X w2 = (Ok ns, w3) ->
        initDiffCmd X cmd wd (Some env) None files diffStrategy s
        = (Ok (DiffRemoteCmd diffStrategy (mkClient "" objs pool disc ns)),
           mkState w3 (log s ++ [EvExpandEnvCmdObjs env files wd;
                                 EvRestClientPool env; EvNamespace]))).
Proof.
  unfold qualified, initDiffCmd, initDiffSingleEnv. cbn [deref].
  split; intros Q; unfold bind at 1, ret;
    rewrite (orb_comm (Strings.HasPrefix env "remote:")), Q; [reflexivity |].
  intros objs w1 pool disc w2 ns w3 H1 H2 H3.
  unfold bind, call. rewrite H1. cbn [world log]. rewrite H2. cbn [world log].
  rewrite H3. unfold ret. now rewrite <- !app_assoc.
Qed.

Lemma single_locator_resolution_witness :
  initDiffCmd TestWorld testCmd "/app" (Some "remote:dev") None [] "subset" s0
  = (Err (Errorf msgSinglePrefix), s0)
  /\ initDiffCmd TestWorld testCmd "/app" (Some "dev") None [] "subset" s0
     = (Ok (DiffRemoteCmd "subset"
              (mkClient "" ["objects of /app/environments/dev/main.jsonnet"]
                        "pool of dev" "discovery of dev" "default")),
        mkState 3 [EvExpandEnvCmdObjs "dev" [] "/app"; EvRestClientPool "dev"; EvNamespace]).
Proof.
  split.
  - apply (proj1 (single_locator_resolution TestWorld testCmd "/app" "remote:dev" []
                    "subset" s0)).
    reflexivity.
  - apply (proj2 (single_locator_resolution TestWorld testCmd "/app" "dev" []
                    "subset" s0) eq_refl
             ["objects of /app/environments/dev/main.jsonnet"] 1
             "pool of dev" "discovery of dev" 2 "default" 3); reflexivity.
Defined.

(** C8.  [RunE] checks the number of arguments before anything else: with
    none, and with more than two, it returns the matching error and has
    called nothing, so no target was built and none was run; with one or two
    it goes on, its first call being the lookup of the working directory. *)
Theorem arity_is_checked_first (X : Collaborators) (cmd : Command X)
    (args : list string) (s : State (World X)) :
  (length args = 0 ->
   RunE X cmd args s = (Err (Errorf (msgNoArgument (UsageString X cmd))), s))
  /\ (2 < length args ->
      RunE X cmd args s = (Err (Errorf (msgTooManyArguments (UsageString X cmd))), s))
  /\ (1 <= length args <= 2 ->
      exists rest, log (snd (RunE X cmd args s)) = (log s ++ EvGetwd :: rest)%list).
Proof.
  unfold RunE. repeat split.
  - intros H. now rewrite H.
  - intros H. destruct (Nat.eqb_spec (length args) 0) as [E | _]; [lia |].
    destruct (Nat.ltb_spec 2 (length args)); [reflexivity | lia].
  - intros H. destruct (Nat.eqb_spec (length args) 0) as [E | _]; [lia |].
    destruct (Nat.ltb_spec 2 (length args)); [lia |].
    match goal with
    | |- context [bind ?c ?k] =>
        assert (K : forall a, emits any_event (k a))
    end.
    { intros a.
      apply emits_bind; [auto with emits | intros componentNames].
      apply emits_bind; [auto with emits | intros strategy].
      apply emits_bind; [apply initDiffCmd_emits | intros c].
      auto with emits. }
    unfold bind at 1, call at 1.
    destruct (Getwd X (world s)) as [[cwd | e] w1].
    + destruct (K cwd (mkState w1 (log s ++ [EvGetwd]))) as (evs & E & _).
      exists evs. cbn [log] in E. rewrite <- app_assoc in E. exact E.
    + now exists [].
Qed.

Lemma arity_is_checked_first_witness :
  RunE TestWorld testCmd [] s0
  = (Err (Errorf (msgNoArgument (UsageString TestWorld testCmd))), s0)
  /\ RunE TestWorld testCmd ["local:a"; "local:b"; "local:c"] s0
     = (Err (Errorf (msgTooManyArguments (UsageString TestWorld testCmd))), s0)
  /\ exists rest, log (snd (RunE TestWorld testCmd ["dev"] s0)) = (log s0 ++ EvGetwd :: rest)%list.
Proof.
  split; [| split].
  - apply (proj1 (arity_is_checked_first TestWorld testCmd [] s0)). reflexivity.
  - apply (proj1 (proj2 (arity_is_checked_first TestWorld testCmd
                           ["local:a"; "local:b"; "local:c"] s0))).
    cbn. lia.
  - apply (proj2 (proj2 (arity_is_checked_first TestWorld testCmd ["dev"] s0))).
    cbn. lia.
Defined.

(** ** Successful runs, read backwards *)

Local Open Scope list_scope.

Lemma bind_ok_inv {W A B} (c : M W A) (k : A -> M W B) (s s' : State W) (b : B) :
  bind c k s = (Ok b, s') ->
  exists a s1, c s = (Ok a, s1) /\ k a s1 = (Ok b, s').
Proof.
  unfold bind. destruct (c s) as [[a | e] s1]; [| discriminate].
  intros H. now exists a, s1.
Qed.

Lemma call_ok_inv {W A} (ev : Event) (op : W -> result A * W) (s s' : State W) (a : A) :
  call ev op s = (Ok a, s') ->
  exists w, op (world s) = (Ok a, w) /\ s' = mkState w (log s ++ [ev]).
Proof.
  unfold call. destruct (op (world s)) as [r w].
  intros H. injection H as -> <-. now exists w.
Qed.

Lemma bind_call_first {W A B} (ev : Event) (op : W -> result A * W) (k : A -> M W B)
    (s : State W) :
  (forall a, emits any_event (k a)) ->
  exists rest, log (snd (bind (call ev op) k s)) = (log s ++ ev :: rest)%list.
Proof.
  intros K. unfold bind, call.
  destruct (op (world s)) as [[a | e] w1].
  - destruct (K a (mkState w1 (log s ++ [ev]))) as (evs & E & _).
    exists evs. cbn [log] in E. now rewrite <- app_assoc in E.
  - now exists [].
Qed.

Section Builders.
Variable X : Collaborators.
Variables (cmd : Command X) (m : Manager X).

(** When the three preparations succeed, [expandEnvObjs] ends in the call
    of the evaluator, with the expander it has filled in. *)
Lemma expandEnvObjs_reaches_evaluator (env : string) (s : State (World X))
    e0 w1 cps w2 base w3 :
  newExpander X cmd (world s) = (Ok e0, w1) ->
  ComponentPaths X m w1 = (Ok cps, w2) ->
  constructBaseObj X cps [] w2 = (Ok base, w3) ->
  let p := LibPaths X m env in
  let jpath := [libPath p; vendorPath p; envLibPath p] ++ FlagJpath e0 in
  let ext := [base; importParams X (envParamsPath p)] ++ ExtCodes e0 in
  expandEnvObjs X cmd env m s
  = (fst (Expand X (mkExpander jpath ext (Expander_rest e0)) [envComponentPath p] w3),
     mkState (snd (Expand X (mkExpander jpath ext (Expander_rest e0)) [envComponentPath p] w3))
             (log s ++ [EvNewExpander; EvComponentPaths; EvConstructBaseObj cps;
                        EvExpand jpath ext [envComponentPath p]])).
Proof.
  intros H1 H2 H3 p jpath ext. unfold expandEnvObjs, bind, call.
  rewrite H1. cbn [world log]. rewrite H2. cbn [world log]. rewrite H3.
  cbn [world log FlagJpath ExtCodes Expander_rest]. fold p. fold jpath. fold ext.
  destruct (Expand X _ _ w3) as [r w4]. cbn [fst snd].
  now rewrite <- !app_assoc.
Qed.

Lemma expandEnvObjs_ok_inv (env : string) (s s' : State (World X)) objs :
  expandEnvObjs X cmd env m s = (Ok objs, s') ->
  exists e0 w1 cps w2 base w3,
    newExpander X cmd (world s) = (Ok e0, w1)
    /\ ComponentPaths X m w1 = (Ok cps, w2)
    /\ constructBaseObj X cps [] w2 = (Ok base, w3).
Proof.
  unfold expandEnvObjs. intros H.
  apply bind_ok_inv in H as (e0 & s1 & C1 & H).
  apply call_ok_inv in C1 as (w1 & C1 & ->).
  apply bind_ok_inv in H as (cps & s2 & C2 & H).
  apply call_ok_inv in C2 as (w2 & C2 & ->).
  apply bind_ok_inv in H as (base & s3 & C3 & H).
  apply call_ok_inv in C3 as (w3 & C3 & ->).
  now exists e0, w1, cps, w2, base, w3.
Qed.

(** A successful expansion handed exactly one entry point to the
    evaluator: the component file of the environment. *)
Lemma expandEnvObjs_ok_files (env : string) (s s' : State (World X)) objs :
  expandEnvObjs X cmd env m s = (Ok objs, s') ->
  supplied_files (log s')
  = (supplied_files (log s) ++ [[envComponentPath (LibPaths X m env)]])%list.
Proof.
  intros H.
  destruct (expandEnvObjs_ok_inv _ _ _ _ H) as (e0 & w1 & cps & w2 & base & w3 & H1 & H2 & H3).
  rewrite (expandEnvObjs_reaches_evaluator env s _ _ _ _ _ _ H1 H2 H3) in H.
  injection H as _ <-. cbn [log]. unfold supplied_files.
  now rewrite flat_map_app.
Qed.

Lemma setupClientConfig_ok_inv (env : string) (s s' : State (World X)) r :
  setupClientConfig X env cmd s = (Ok r, s') ->
  log s' = (log s ++ [EvRestClient env; EvNamespaceFor])%list.
Proof.
  unfold setupClientConfig. intros H.
  apply bind_ok_inv in H as ([pool disc] & s1 & C1 & H).
  apply call_ok_inv in C1 as (w1 & C1 & ->).
  apply bind_ok_inv in H as (ns & s2 & C2 & H).
  apply call_ok_inv in C2 as (w2 & C2 & ->).
  injection H as _ <-. cbn [log]. now rewrite <- app_assoc.
Qed.

Lemma setupClientConfig_supplied_files (env : string) (s : State (World X)) :
  supplied_files (log (snd (setupClientConfig X env cmd s))) = supplied_files (log s).
Proof.
  destruct (setupClientConfig_emits X env cmd s) as (evs & -> & F).
  unfold supplied_files. rewrite flat_map_app.
  replace (flat_map _ evs) with (@nil (list string)); [now rewrite app_nil_r |].
  induction evs as [| e evs IH]; [reflexivity |].
  cbn in F. apply andb_true_iff in F as [Fe F].
  cbn [flat_map]. rewrite <- (IH F). now destruct e.
Qed.

(** A successful [initDiffRemoteCmd]: the objects of [localEnv], the client
    of [remoteEnv]. *)
Lemma initDiffRemoteCmd_ok_inv (localEnv remoteEnv strat : string)
    (s s' : State (World X)) c :
  initDiffRemoteCmd X localEnv remoteEnv strat cmd m s = (Ok c, s') ->
  shape c = IsDiffRemoteCmd /\ DiffStrategy_of c = strat
  /\ supplied_files (log s')
     = (supplied_files (log s) ++ [[envComponentPath (LibPaths X m localEnv)]])%list
  /\ client_calls (log s')
     = (client_calls (log s) ++ [EvRestClient remoteEnv; EvNamespaceFor])%list.
Proof.
  unfold initDiffRemoteCmd. intros H.
  apply bind_ok_inv in H as (objs & s1 & E1 & H).
  apply bind_ok_inv in H as ([[pool disc] ns] & s2 & E2 & H).
  injection H as <- <-. repeat split.
  - pose proof (setupClientConfig_supplied_files remoteEnv s1) as F.
    rewrite E2 in F. cbn [snd] in F.
    now rewrite F, (expandEnvObjs_ok_files _ _ _ _ E1).
  - rewrite (setupClientConfig_ok_inv _ _ _ _ E2).
    pose proof (expandEnvObjs_client_calls X cmd localEnv m s) as F.
    rewrite E1 in F. cbn [snd] in F.
    unfold client_calls in *. now rewrite filter_app, F.
Qed.

Lemma initDiffLocalCmd_ok_inv (env1 env2 strat : string) (s s' : State (World X)) c :
  initDiffLocalCmd X env1 env2 strat cmd m s = (Ok c, s') ->
  shape c = IsDiffLocalCmd /\ DiffStrategy_of c = strat.
Proof.
  unfold initDiffLocalCmd. intros H.
  apply bind_ok_inv in H as (o1 & s1 & E1 & H).
  apply bind_ok_inv in H as (o2 & s2 & E2 & H).
  injection H as <- <-. now split.
Qed.

Lemma initDiffRemotesCmd_ok_inv (env1 env2 strat : string) (s s' : State (World X)) c :
  initDiffRemotesCmd X env1 env2 strat cmd m s = (Ok c, s') ->
  shape c = IsDiffRemotesCmd /\ DiffStrategy_of c = strat
  /\ exists o1 s1 o2 s2,
       expandEnvObjs X cmd env1 m s = (Ok o1, s1)
       /\ expandEnvObjs X cmd env2 m s1 = (Ok o2, s2)
       /\ client_calls (log s2) = client_calls (log s)
       /\ client_calls (log s')
          = (client_calls (log s) ++ [EvRestClient env1; EvNamespaceFor;
                                      EvRestClient env2; EvNamespaceFor])%list.
Proof.
  unfold initDiffRemotesCmd. intros H.
  apply bind_ok_inv in H as (o1 & s1 & E1 & H).
  apply bind_ok_inv in H as (o2 & s2 & E2 & H).
  apply bind_ok_inv in H as ([[pa da] na] & s3 & E3 & H).
  apply bind_ok_inv in H as ([[pb db] nb] & s4 & E4 & H).
  injection H as <- <-. split; [reflexivity |]. split; [reflexivity |].
  exists o1, s1, o2, s2.
  pose proof (expandEnvObjs_client_calls X cmd env1 m s) as F1.
  pose proof (expandEnvObjs_client_calls X cmd env2 m s1) as F2.
  rewrite E1 in F1. rewrite E2 in F2. cbn [snd] in F1, F2.
  repeat split; [exact E1 | exact E2 | congruence |].
  rewrite (setupClientConfig_ok_inv _ _ _ _ E4), (setupClientConfig_ok_inv _ _ _ _ E3).
  unfold client_calls in *. rewrite !filter_app, F2, F1.
  cbn. now rewrite <- app_assoc.
Qed.

End Builders.

(** ** Locator parsing *)

(** C4, as the claim has it, fails in the one-argument form: [foo:bar] has
    a colon after a prefix that is neither [local] nor [remote], and given
    alone it is taken as the name of an environment and resolved. *)
Lemma single_argument_with_other_prefix :
  cut "foo:bar" = Some ("foo", "bar")%string
  /\ initDiffCmd TestWorld testCmd "/app" (Some "foo:bar"%string) None [] "subset" s0
     = (Ok (DiffRemoteCmd "subset"
              (mkClient "" ["objects of /app/environments/foo:bar/main.jsonnet"%string]
                        "pool of foo:bar" "discovery of foo:bar" "default")),
        mkState 3 [EvExpandEnvCmdObjs "foo:bar" [] "/app"; EvRestClientPool "foo:bar";
                   EvNamespace]).
Proof. split; reflexivity. Qed.

(** C4, amended.  A raw locator with a colon after a prefix that is neither
    [local] nor [remote]: in the two-argument form, in either position, the
    resolver returns the prefix error, nothing is called and no target is
    built; in the one-argument form it is not rejected, the whole string is
    the environment name and the first call is its expansion. *)
Theorem other_prefix_rejected_with_two_locators (X : Collaborators) (cmd : Command X)
    (wd : AbsPath) (raw a b other : string) (files : list string)
    (diffStrategy : string) (s : State (World X)) :
  cut raw = Some (a, b) -> a <> local -> a <> remote ->
  initDiffCmd X cmd wd (Some raw) (Some other) files diffStrategy s
  = (Err (Errorf msgPrefix), s)
  /\ initDiffCmd X cmd wd (Some other) (Some raw) files diffStrategy s
     = (Err (Errorf msgPrefix), s)
  /\ exists rest,
       log (snd (initDiffCmd X cmd wd (Some raw) None files diffStrategy s))
       = log s ++ EvExpandEnvCmdObjs raw files wd :: rest.
Proof.
  intros C Hl Hr.
  assert (Q : qualified raw = false).
  { rewrite qualified_cut, C.
    apply String.eqb_neq in Hl, Hr. now rewrite Hl, Hr. }
  split; [| split].
  - apply initDiffCmd_unqualified. now rewrite Q.
  - apply initDiffCmd_unqualified. rewrite Q. apply andb_false_r.
  - unfold initDiffCmd, initDiffSingleEnv. cbn [deref]. unfold bind at 1, ret.
    unfold qualified in Q. rewrite (orb_comm (Strings.HasPrefix raw "remote:")), Q.
    apply bind_call_first. intros objs.
    apply emits_bind; [auto with emits | intros [pool disc]].
    apply emits_bind; [auto with emits | intros ns].
    apply (emits_ret any_event).
Qed.

Lemma other_prefix_rejected_with_two_locators_witness :
  initDiffCmd TestWorld testCmd "/app" (Some "foo:bar"%string) (Some "local:dev"%string)
    [] "subset" s0
  = (Err (Errorf msgPrefix), s0)
  /\ initDiffCmd TestWorld testCmd "/app" (Some "local:dev"%string) (Some "foo:bar"%string)
       [] "subset" s0
     = (Err (Errorf msgPrefix), s0)
  /\ exists rest,
       log (snd (initDiffCmd TestWorld testCmd "/app" (Some "foo:bar"%string) None
                   [] "subset" s0))
       = log s0 ++ EvExpandEnvCmdObjs "foo:bar" [] "/app" :: rest.
Proof.
  apply (other_prefix_rejected_with_two_locators TestWorld testCmd "/app"
           "foo:bar" "foo" "bar" "local:dev" [] "subset" s0);
    [reflexivity | discriminate | discriminate].
Defined.

(** ** Dispatch *)

(** C2.  For two qualified locators (and no component filter) the resolver
    looks the application up and then runs the builder that the dispatch
    table gives for the two kinds; a target that comes out is the struct of
    the table and carries the strategy; in the mixed case the two orders of
    the arguments are the same computation, and in a successful run the
    evaluator was given the component file of the name marked local while
    the client calls were made for the name marked remote. *)
Theorem dispatch_is_kind_driven (X : Collaborators) (cmd : Command X) (wd : AbsPath)
    (diffStrategy : string) (k1 k2 : Kind) (n1 n2 : string) (s : State (World X)) :
  initDiffCmd X cmd wd (Some (locator k1 n1)) (Some (locator k2 n2)) [] diffStrategy s
  = (m <- call (EvFind wd) (Find X wd) ;;
     spec_dispatch X k1 n1 k2 n2 diffStrategy cmd m) s
  /\ (forall c s',
        initDiffCmd X cmd wd (Some (locator k1 n1)) (Some (locator k2 n2)) []
          diffStrategy s = (Ok c, s') ->
        shape c = table k1 k2 /\ DiffStrategy_of c = diffStrategy)
  /\ (forall files,
        initDiffCmd X cmd wd (Some (locator Remote n2)) (Some (locator Local n1)) files
          diffStrategy s
        = initDiffCmd X cmd wd (Some (locator Local n1)) (Some (locator Remote n2)) files
            diffStrategy s)
  /\ (forall c s',
        initDiffCmd X cmd wd (Some (locator Local n1)) (Some (locator Remote n2)) []
          diffStrategy s = (Ok c, s') ->
        exists m w,
          Find X wd (world s) = (Ok m, w)
          /\ supplied_files (log s')
             = supplied_files (log s) ++ [[envComponentPath (LibPaths X m n1)]]
          /\ client_calls (log s')
             = client_calls (log s) ++ [EvRestClient n2; EvNamespaceFor]).
Proof.
  split; [apply initDiffCmd_dispatch |].
  split; [| split].
  - intros c s'. rewrite initDiffCmd_dispatch. intros H.
    apply bind_ok_inv in H as (m & s1 & _ & H).
    destruct k1, k2; cbn [spec_dispatch table] in *.
    + now apply initDiffLocalCmd_ok_inv in H.
    + now apply initDiffRemoteCmd_ok_inv in H.
    + now apply initDiffRemoteCmd_ok_inv in H.
    + now apply initDiffRemotesCmd_ok_inv in H.
  - intros [| f files].
    + now rewrite !initDiffCmd_dispatch.
    + rewrite !initDiffCmd_filter;
        [reflexivity | | discriminate | | discriminate];
        now rewrite !qualified_locator.
  - intros c s'. rewrite initDiffCmd_dispatch. intros H.
    apply bind_ok_inv in H as (m & s1 & F & H).
    apply call_ok_inv in F as (w & F & ->).
    cbn [spec_dispatch] in H.
    apply initDiffRemoteCmd_ok_inv in H as (_ & _ & Hf & Hc).
    exists m, w. split; [exact F |]. cbn [log] in Hf, Hc.
    unfold supplied_files, client_calls in *.
    rewrite flat_map_app in Hf. rewrite filter_app in Hc.
    cbn in Hf, Hc. rewrite app_nil_r in Hf, Hc. now split.
Qed.

Lemma dispatch_is_kind_driven_witness :
  fst (initDiffCmd TestWorld testCmd "/app" (Some "remote:a"%string) (Some "local:b"%string)
         [] "subset" s0)
  = Ok (DiffRemoteCmd "subset"
          (mkClient "" ["objects of /app/environments/b/main.jsonnet"%string]
                    "pool of a" "discovery of a" "default"))
  /\ shape (DiffRemoteCmd (Unstructured := string) "subset"
              (mkClient "" ["objects of /app/environments/b/main.jsonnet"%string]
                        "pool of a" "discovery of a" "default"))
     = table Remote Local.
Proof.
  split; [reflexivity |].
  apply (proj1 (proj2 (dispatch_is_kind_driven TestWorld testCmd "/app" "subset"
                         Remote Local "a" "b" s0)) _
           (snd (initDiffCmd TestWorld testCmd "/app" (Some "remote:a"%string)
                   (Some "local:b"%string) [] "subset" s0))).
  vm_compute. reflexivity.
Defined.

(** C9.  With two locators marked remote, the resolver runs
    [initDiffRemotesCmd], which expands the manifests of both names before
    it builds a client context: when the expansion of the first name fails,
    or that of the second after the first succeeded, the failure is the
    result and no client call was made; and whenever a target comes out,
    both expansions had succeeded with no client call made until then, the
    four client calls coming after. *)
Theorem remotes_expand_before_connecting (X : Collaborators) (cmd : Command X)
    (wd : AbsPath) (diffStrategy : string) (n1 n2 : string) (s : State (World X)) :
  initDiffCmd X cmd wd (Some (locator Remote n1)) (Some (locator Remote n2)) []
    diffStrategy s
  = (m <- call (EvFind wd) (Find X wd) ;;
     initDiffRemotesCmd X n1 n2 diffStrategy cmd m) s
  /\ forall (m : Manager X) (s1 : State (World X)),
       (forall e s2,
          expandEnvObjs X cmd n1 m s1 = (Err e, s2) ->
          initDiffRemotesCmd X n1 n2 diffStrategy cmd m s1 = (Err e, s2)
          /\ client_calls (log s2) = client_calls (log s1))
       /\ (forall o1 s2 e s3,
             expandEnvObjs X cmd n1 m s1 = (Ok o1, s2) ->
             expandEnvObjs X cmd n2 m s2 = (Err e, s3) ->
             initDiffRemotesCmd X n1 n2 diffStrategy cmd m s1 = (Err e, s3)
             /\ client_calls (log s3) = client_calls (log s1))
       /\ (forall c s4,
             initDiffRemotesCmd X n1 n2 diffStrategy cmd m s1 = (Ok c, s4) ->
             exists o1 s2 o2 s3,
               expandEnvObjs X cmd n1 m s1 = (Ok o1, s2)
               /\ expandEnvObjs X cmd n2 m s2 = (Ok o2, s3)
               /\ client_calls (log s3) = client_calls (log s1)
               /\ client_calls (log s4)
                  = client_calls (log s1) ++ [EvRestClient n1; EvNamespaceFor;
                                              EvRestClient n2; EvNamespaceFor]).
Proof.
  split; [apply initDiffCmd_dispatch |].
  intros m s1. split; [| split].
  - intros e s2 E1.
    pose proof (expandEnvObjs_client_calls X cmd n1 m s1) as F1.
    rewrite E1 in F1. split; [| exact F1].
    unfold initDiffRemotesCmd, bind. now rewrite E1.
  - intros o1 s2 e s3 E1 E2.
    pose proof (expandEnvObjs_client_calls X cmd n1 m s1) as F1.
    pose proof (expandEnvObjs_client_calls X cmd n2 m s2) as F2.
    rewrite E1 in F1. rewrite E2 in F2. cbn [snd] in F1, F2.
    split; [| congruence].
    unfold initDiffRemotesCmd, bind. now rewrite E1, E2.
  - intros c s4 H.
    now apply initDiffRemotesCmd_ok_inv in H as (_ & _ & H).
Qed.

Lemma remotes_expand_before_connecting_witness :
  (initDiffRemotesCmd TestWorld "broken" "prod" "subset" testCmd tt s0
   = (Err (Foreign "RUNTIME ERROR: broken template"),
      snd (expandEnvObjs TestWorld testCmd "broken" tt s0))
   /\ client_calls (log (snd (expandEnvObjs TestWorld testCmd "broken" tt s0)))
      = client_calls (log s0))
  /\ (initDiffRemotesCmd TestWorld "dev" "broken" "subset" testCmd tt s0
      = (Err (Foreign "RUNTIME ERROR: broken template"),
         snd (expandEnvObjs TestWorld testCmd "broken" tt
                (snd (expandEnvObjs TestWorld testCmd "dev" tt s0))))
      /\ client_calls (log (snd (expandEnvObjs TestWorld testCmd "broken" tt
                                   (snd (expandEnvObjs TestWorld testCmd "dev" tt s0)))))
         = client_calls (log s0)).
Proof.
  pose proof (proj2 (remotes_expand_before_connecting TestWorld testCmd "/app" "subset"
                       "broken" "prod" s0) tt s0) as A.
  pose proof (proj2 (remotes_expand_before_connecting TestWorld testCmd "/app" "subset"
                       "dev" "broken" s0) tt s0) as B.
  split.
  - apply (proj1 A). vm_compute. reflexivity.
  - apply (proj1 (proj2 B)
             ["objects of /app/environments/dev/main.jsonnet"%string]
             (snd (expandEnvObjs TestWorld testCmd "dev" tt s0)));
      vm_compute; reflexivity.
Defined.

(** C10.  In the two-argument form a locator that is only [local:] or
    [remote:] splits into its prefix and the empty name, passes the
    validation, and the resolver goes on to the metadata lookup and then to
    the builder of the dispatch table with the empty string as the
    environment name. *)
Theorem empty_name_is_accepted (X : Collaborators) (cmd : Command X) (wd : AbsPath)
    (diffStrategy : string) (k1 k2 : Kind) (s : State (World X)) :
  Strings.SplitN (kind_prefix k1 ++ ":")%string ":" 2 = [kind_prefix k1; ""%string]
  /\ invalid (Strings.SplitN (kind_prefix k1 ++ ":")%string ":" 2)
             (Strings.SplitN (kind_prefix k2 ++ ":")%string ":" 2) = false
  /\ initDiffCmd X cmd wd (Some (kind_prefix k1 ++ ":")%string)
       (Some (kind_prefix k2 ++ ":")%string) [] diffStrategy s
     = (m <- call (EvFind wd) (Find X wd) ;;
        spec_dispatch X k1 "" k2 "" diffStrategy cmd m) s.
Proof.
  split; [now destruct k1 |].
  split; [now destruct k1, k2 |].
  change (kind_prefix k1 ++ ":")%string with (locator k1 "").
  change (kind_prefix k2 ++ ":")%string with (locator k2 "").
  apply initDiffCmd_dispatch.
Qed.

(** The same on a run: [local:] against [remote:] expands the environment
    with the empty name and connects for the empty name. *)
Example empty_name_run :
  initDiffCmd TestWorld testCmd "/app" (Some "local:"%string) (Some "remote:"%string)
    [] "subset" s0
  = (Ok (DiffRemoteCmd "subset"
           (mkClient "" ["objects of /app/environments//main.jsonnet"%string]
                     "pool of " "discovery of " "default")),
     mkState 7
       [EvFind "/app"; EvNewExpander; EvComponentPaths;
        EvConstructBaseObj ["/app/components/redis.jsonnet"%string];
        EvExpand ["/app/lib"; "/app/vendor"; "/app/environments//.metadata";
                  "/caller/lib"]%string
                 ["__ksonnet/components={redis: import 'redis.jsonnet'}";
                  "__ksonnet/params=import '/app/environments//params.libsonnet'";
                  "__ksonnet/params={replicas: 9}"]%string
                 ["/app/environments//main.jsonnet"%string];
        EvRestClient ""; EvNamespaceFor]).
Proof. reflexivity. Qed.

(** ** What the evaluator is given *)






(** * Further properties of [cmd/diff.go] *)

(** ** Splitting a locator *)

(** X1.  [strings.SplitN(s, ":", 2)] loses nothing: it gives one piece when [s]
    has no colon and two when it has, the first piece is free of colons,
    and joining the pieces with a colon gives [s] back; so a name keeps the
    colons it has after the first one. *)
Theorem SplitN_colon_join (s : string) :
  length (Strings.SplitN s ":" 2) = (if has_colon s then 2 else 1)
  /\ has_colon (nth 0 (Strings.SplitN s ":" 2) ""%string) = false
  /\ String.concat ":" (Strings.SplitN s ":" 2) = s.
Proof.
  rewrite SplitN_colon.
  destruct (cut s) as [[a b] |] eqn:C.
  - destruct (cut_some_inv _ _ _ C) as [-> Ha].
    assert (Hc : has_colon (a ++ ":" ++ b)%string = true).
    { destruct (has_colon (a ++ ":" ++ b)%string) eqn:E; [reflexivity |].
      apply cut_none_iff in E. congruence. }
    rewrite Hc. cbn [length nth String.concat]. now rewrite Ha.
  - pose proof (proj1 (cut_none_iff s) C) as Hc. rewrite Hc.
    cbn [length nth String.concat]. now rewrite Hc.
Qed.

(** ** What the resolver calls *)

Section ResolverEvents.
Variable X : Collaborators.
Variable P : Event -> bool.
Hypothesis P_expansion : forall e, is_expansion_event e = true -> P e = true.
Hypothesis P_client : forall e, is_client_event e = true -> P e = true.
Hypothesis P_find : forall wd, P (EvFind wd) = true.

Lemma expandEnvObjs_emits_gen cmd env m : emits P (expandEnvObjs X cmd env m).
Proof. exact (emits_weaken _ _ _ P_expansion (expandEnvObjs_emits X cmd env m)). Qed.

Lemma setupClientConfig_emits_gen env cmd : emits P (setupClientConfig X env cmd).
Proof. exact (emits_weaken _ _ _ P_client (setupClientConfig_emits X env cmd)). Qed.

Lemma initDiffSingleEnv_emits_gen env strat files cmd wd :
  emits P (initDiffSingleEnv X env strat files cmd wd).
Proof.
  unfold initDiffSingleEnv.
  destruct (_ || _); [apply emits_fail |].
  apply emits_bind; [apply emits_call; now apply P_expansion | intros objs].
  apply emits_bind; [apply emits_call; now apply P_client | intros [pool disc]].
  apply emits_bind; [apply emits_call; now apply P_client | intros ns].
  apply emits_ret.
Qed.

Lemma initDiffLocalCmd_emits_gen e1 e2 strat cmd m :
  emits P (initDiffLocalCmd X e1 e2 strat cmd m).
Proof.
  unfold initDiffLocalCmd.
  apply emits_bind; [apply expandEnvObjs_emits_gen | intros o1].
  apply emits_bind; [apply expandEnvObjs_emits_gen | intros o2].
  apply emits_ret.
Qed.

Lemma initDiffRemotesCmd_emits_gen e1 e2 strat cmd m :
  emits P (initDiffRemotesCmd X e1 e2 strat cmd m).
Proof.
  unfold initDiffRemotesCmd.
  apply emits_bind; [apply expandEnvObjs_emits_gen | intros o1].
  apply emits_bind; [apply expandEnvObjs_emits_gen | intros o2].
  apply emits_bind; [apply setupClientConfig_emits_gen | intros [[pa da] na]].
  apply emits_bind; [apply setupClientConfig_emits_gen | intros [[pb db] nb]].
  apply emits_ret.
Qed.

Lemma initDiffRemoteCmd_emits_gen l r strat cmd m :
  emits P (initDiffRemoteCmd X l r strat cmd m).
Proof.
  unfold initDiffRemoteCmd.
  apply emits_bind; [apply expandEnvObjs_emits_gen | intros o].
  apply emits_bind; [apply setupClientConfig_emits_gen | intros [[p d] n]].
  apply emits_ret.
Qed.

Lemma initDiffCmd_emits_gen cmd wd fq1 fq2 files strat :
  emits P (initDiffCmd X cmd wd fq1 fq2 files strat).
Proof.
  unfold initDiffCmd. destruct fq2 as [fq2 |].
  - apply emits_bind; [apply emits_deref |]. intros a.
    destruct (invalid _ _); [apply emits_fail |].
    destruct (0 <? _)%nat; [apply emits_fail |].
    apply emits_bind; [apply emits_call; apply P_find |]. intros m.
    destruct (_ && _); [apply initDiffLocalCmd_emits_gen |].
    destruct (_ && _); [apply initDiffRemotesCmd_emits_gen |].
    destruct (_ =? _)%string; apply initDiffRemoteCmd_emits_gen.
  - apply emits_bind; [apply emits_deref |]. intros a.
    apply initDiffSingleEnv_emits_gen.
Qed.

End ResolverEvents.

(** X2.  Whatever its arguments, [initDiffCmd] only looks the application up,
    expands manifests and builds client contexts: it reads neither the
    working directory nor a flag, and it does not run the diff. *)
Theorem resolver_calls_only_its_collaborators (X : Collaborators) (cmd : Command X)
    (wd : AbsPath) (envFq1 envFq2 : option string) (files : list string)
    (diffStrategy : string) :
  emits is_resolver_event (initDiffCmd X cmd wd envFq1 envFq2 files diffStrategy).
Proof.
  apply initDiffCmd_emits_gen.
  - intros e H. destruct e; try discriminate; reflexivity.
  - intros e H. destruct e; try discriminate; reflexivity.
  - reflexivity.
Qed.

(** X3.  With one locator the application is never looked up with
    [metadata.Find] and the evaluator is never called from [diff.go]: the
    only calls are [expandEnvCmdObjs], [restClientPool] and [namespace]. *)
Theorem single_locator_calls (X : Collaborators) (cmd : Command X) (wd : AbsPath)
    (env : string) (files : list string) (diffStrategy : string) (s : State (World X)) :
  exists evs,
    log (snd (initDiffCmd X cmd wd (Some env) None files diffStrategy s)) = log s ++ evs
    /\ (evs = []
        \/ evs = [EvExpandEnvCmdObjs env files wd]
        \/ evs = [EvExpandEnvCmdObjs env files wd; EvRestClientPool env]
        \/ evs = [EvExpandEnvCmdObjs env files wd; EvRestClientPool env; EvNamespace]).
Proof.
  unfold initDiffCmd, initDiffSingleEnv. cbn [deref]. unfold bind, ret, fail, call.
  destruct (_ || _).
  { exists []. rewrite app_nil_r. auto. }
  destruct (expandEnvCmdObjs X cmd env files wd (world s)) as [[objs | e] w1]; cbn [world log snd].
  2: { eexists. split; [reflexivity | auto]. }
  destruct (restClientPool X cmd env w1) as [[[pool disc] | e] w2]; cbn [world log snd].
  2: { eexists. split; [now rewrite <- app_assoc | auto]. }
  destruct (namespace X w2) as [[ns | e] w3]; cbn [world log snd];
    eexists; (split; [now rewrite <- !app_assoc | auto]).
Qed.

(** ** Expansion comes before connection *)

Lemma phased_pre {W A} (c : M W A) : emits not_client_event c -> phased c.
Proof.
  intros H s. destruct (H s) as (evs & E & F).
  exists evs, []. now rewrite app_nil_r.
Qed.

Lemma phased_post {W A} (c : M W A) : emits is_client_event c -> phased c.
Proof.
  intros H s. destruct (H s) as (evs & E & F).
  now exists [], evs.
Qed.

Lemma phased_bind_pre {W A B} (c : M W A) (k : A -> M W B) :
  emits not_client_event c -> (forall a, phased (k a)) -> phased (bind c k).
Proof.
  intros Hc Hk s. unfold bind.
  destruct (Hc s) as (evs & E & F).
  destruct (c s) as [[a | e] s1]; cbn [snd] in E.
  - destruct (Hk a s1) as (pre & post & E' & Fpre & Fpost).
    exists (evs ++ pre), post. rewrite E', E, forallb_app, F, Fpre.
    now rewrite <- !app_assoc.
  - exists evs, []. now rewrite app_nil_r.
Qed.

Lemma phased_bind_post {W A B} (c : M W A) (k : A -> M W B) :
  phased c -> (forall a, emits is_client_event (k a)) -> phased (bind c k).
Proof.
  intros Hc Hk s. unfold bind.
  destruct (Hc s) as (pre & post & E & Fpre & Fpost).
  destruct (c s) as [[a | e] s1]; cbn [snd] in E.
  - destruct (Hk a s1) as (evs & E' & F).
    exists pre, (post ++ evs). rewrite E', E, forallb_app, Fpost, F.
    now rewrite <- !app_assoc.
  - now exists pre, post.
Qed.

Lemma expandEnvObjs_not_client X cmd env m :
  emits not_client_event (expandEnvObjs X cmd env m).
Proof.
  apply (emits_weaken is_expansion_event); [| apply expandEnvObjs_emits].
  now intros [].
Qed.

Lemma initDiffSingleEnv_phased X env strat files cmd wd :
  phased (initDiffSingleEnv X env strat files cmd wd).
Proof.
  unfold initDiffSingleEnv.
  destruct (_ || _); [apply phased_pre, emits_fail |].
  apply phased_bind_pre; [apply emits_call; reflexivity | intros objs].
  apply phased_post.
  apply emits_bind; [apply emits_call; reflexivity | intros [pool disc]].
  apply emits_bind; [apply emits_call; reflexivity | intros ns].
  apply emits_ret.
Qed.

Lemma initDiffLocalCmd_not_client X e1 e2 strat cmd m :
  emits not_client_event (initDiffLocalCmd X e1 e2 strat cmd m).
Proof.
  unfold initDiffLocalCmd.
  apply emits_bind; [apply expandEnvObjs_not_client | intros o1].
  apply emits_bind; [apply expandEnvObjs_not_client | intros o2].
  apply emits_ret.
Qed.

Lemma initDiffRemotesCmd_phased X e1 e2 strat cmd m :
  phased (initDiffRemotesCmd X e1 e2 strat cmd m).
Proof.
  unfold initDiffRemotesCmd.
  apply phased_bind_pre; [apply expandEnvObjs_not_client | intros o1].
  apply phased_bind_pre; [apply expandEnvObjs_not_client | intros o2].
  apply phased_post.
  apply emits_bind; [apply setupClientConfig_emits | intros [[pa da] na]].
  apply emits_bind; [apply setupClientConfig_emits | intros [[pb db] nb]].
  apply emits_ret.
Qed.

Lemma initDiffRemoteCmd_phased X l r strat cmd m :
  phased (initDiffRemoteCmd X l r strat cmd m).
Proof.
  unfold initDiffRemoteCmd.
  apply phased_bind_pre; [apply expandEnvObjs_not_client | intros o].
  apply phased_post.
  apply emits_bind; [apply setupClientConfig_emits | intros [[p d] n]].
  apply emits_ret.
Qed.

(** X4.  In every mode, one locator or two, whatever fails or succeeds, the
    calls of [initDiffCmd] come in two phases: first the calls that are not
    client calls (metadata lookup, expansion), then the client calls.  No
    manifest is expanded once a client context has been asked for. *)
Theorem expansion_precedes_connection (X : Collaborators) (cmd : Command X)
    (wd : AbsPath) (envFq1 envFq2 : option string) (files : list string)
    (diffStrategy : string) :
  phased (initDiffCmd X cmd wd envFq1 envFq2 files diffStrategy).
Proof.
  unfold initDiffCmd. destruct envFq2 as [fq2 |].
  - apply phased_bind_pre; [apply emits_deref |]. intros a.
    destruct (invalid _ _); [apply phased_pre, emits_fail |].
    destruct (0 <? _)%nat; [apply phased_pre, emits_fail |].
    apply phased_bind_pre; [apply emits_call; reflexivity |]. intros m.
    destruct (_ && _); [apply phased_pre, initDiffLocalCmd_not_client |].
    destruct (_ && _); [apply initDiffRemotesCmd_phased |].
    destruct (_ =? _)%string; apply initDiffRemoteCmd_phased.
  - apply phased_bind_pre; [apply emits_deref |]. intros a.
    apply initDiffSingleEnv_phased.
Qed.

(** ** The local mode *)

(** X5.  Two locators marked local never lead to a client call, whatever the
    component filter and whatever fails: a diff of two local environments
    does not touch a cluster. *)
Theorem two_locals_make_no_client_call (X : Collaborators) (cmd : Command X)
    (wd : AbsPath) (n1 n2 : string) (files : list string) (diffStrategy : string)
    (s : State (World X)) :
  client_calls
    (log (snd (initDiffCmd X cmd wd (Some (locator Local n1)) (Some (locator Local n2))
                 files diffStrategy s)))
  = client_calls (log s).
Proof.
  destruct files as [| f files].
  - rewrite initDiffCmd_dispatch. cbn [spec_dispatch].
    assert (H : emits not_client_event
                  (m <- call (EvFind wd) (Find X wd) ;;
                   initDiffLocalCmd X n1 n2 diffStrategy cmd m)).
    { apply emits_bind; [apply emits_call; reflexivity | intros m].
      apply initDiffLocalCmd_not_client. }
    destruct (H s) as (evs & -> & F).
    apply (filter_emitted not_client_event); [| exact F].
    intros e He. unfold not_client_event in He. now destruct (is_client_event e).
  - rewrite initDiffCmd_filter; [reflexivity | | discriminate].
    now rewrite !qualified_locator.
Qed.

(** X6.  [initDiffLocalCmd] expands the first environment, then the second: if
    the first expansion fails the second is not attempted, and a target
    holds each name with the objects expanded for it, the evaluator having
    been given the component file of the first name and then that of the
    second. *)
Theorem local_environments_in_order (X : Collaborators) (cmd : Command X)
    (m : Manager X) (env1 env2 diffStrategy : string) (s : State (World X)) :
  (forall e s1,
     expandEnvObjs X cmd env1 m s = (Err e, s1) ->
     initDiffLocalCmd X env1 env2 diffStrategy cmd m s = (Err e, s1))
  /\ (forall c s2,
        initDiffLocalCmd X env1 env2 diffStrategy cmd m s = (Ok c, s2) ->
        exists o1 s1 o2,
          expandEnvObjs X cmd env1 m s = (Ok o1, s1)
          /\ expandEnvObjs X cmd env2 m s1 = (Ok o2, s2)
          /\ c = DiffLocalCmd diffStrategy (mkLocalEnv env1 o1) (mkLocalEnv env2 o2)
          /\ supplied_files (log s2)
             = supplied_files (log s)
               ++ [[envComponentPath (LibPaths X m env1)];
                   [envComponentPath (LibPaths X m env2)]]).
Proof.
  split.
  - intros e s1 E. unfold initDiffLocalCmd, bind. now rewrite E.
  - intros c s2 H. unfold initDiffLocalCmd in H.
    apply bind_ok_inv in H as (o1 & s1 & E1 & H).
    apply bind_ok_inv in H as (o2 & s2' & E2 & H).
    injection H as <- <-.
    exists o1, s1, o2. repeat split; try assumption.
    rewrite (expandEnvObjs_ok_files _ _ _ _ _ _ _ E2),
            (expandEnvObjs_ok_files _ _ _ _ _ _ _ E1).
    now rewrite <- app_assoc.
Qed.

Lemma local_environments_in_order_witness :
  initDiffLocalCmd TestWorld "broken" "dev" "all" testCmd tt s0
  = (Err (Foreign "RUNTIME ERROR: broken template"),
     snd (expandEnvObjs TestWorld testCmd "broken" tt s0))
  /\ supplied_files (log (snd (initDiffLocalCmd TestWorld "a" "b" "all" testCmd tt s0)))
     = [["/app/environments/a/main.jsonnet"%string];
        ["/app/environments/b/main.jsonnet"%string]].
Proof.
  split.
  - apply (proj1 (local_environments_in_order TestWorld testCmd tt "broken" "dev"
                    "all" s0)).
    vm_compute. reflexivity.
  - destruct (proj2 (local_environments_in_order TestWorld testCmd tt "a" "b" "all" s0)
                (DiffLocalCmd "all"
                   (mkLocalEnv "a" ["objects of /app/environments/a/main.jsonnet"%string])
                   (mkLocalEnv "b" ["objects of /app/environments/b/main.jsonnet"%string]))
                (snd (initDiffLocalCmd TestWorld "a" "b" "all" testCmd tt s0)))
      as (o1 & s1 & o2 & _ & _ & _ & F).
    + vm_compute. reflexivity.
    + exact F.
Defined.

(** ** The strategy *)

Lemma initDiffSingleEnv_ok_inv X env strat files cmd wd (s s' : State (World X)) c :
  initDiffSingleEnv X env strat files cmd wd s = (Ok c, s') ->
  exists objs pool disc ns, c = DiffRemoteCmd strat (mkClient "" objs pool disc ns).
Proof.
  unfold initDiffSingleEnv. destruct (_ || _); [discriminate |]. intros H.
  apply bind_ok_inv in H as (objs & s1 & _ & H).
  apply bind_ok_inv in H as ([pool disc] & s2 & _ & H).
  apply bind_ok_inv in H as (ns & s3 & _ & H).
  injection H as <- _. now exists objs, pool, disc, ns.
Qed.

(** X7.  Every target that [initDiffCmd] returns, in the one-locator form and in
    the three two-locator forms, carries the strategy it was given. *)
Theorem target_carries_strategy (X : Collaborators) (cmd : Command X) (wd : AbsPath)
    (envFq1 envFq2 : option string) (files : list string) (diffStrategy : string)
    (s s' : State (World X)) (c : Target X) :
  initDiffCmd X cmd wd envFq1 envFq2 files diffStrategy s = (Ok c, s') ->
  DiffStrategy_of c = diffStrategy.
Proof.
  unfold initDiffCmd. intros H. destruct envFq2 as [fq2 |].
  - apply bind_ok_inv in H as (fq1 & s1 & _ & H).
    destruct (invalid _ _); [discriminate |].
    destruct (0 <? _)%nat; [discriminate |].
    apply bind_ok_inv in H as (m & s2 & _ & H).
    destruct (_ && _); [now apply initDiffLocalCmd_ok_inv in H |].
    destruct (_ && _); [now apply initDiffRemotesCmd_ok_inv in H |].
    destruct (_ =? _)%string; now apply initDiffRemoteCmd_ok_inv in H.
  - apply bind_ok_inv in H as (fq1 & s1 & _ & H).
    apply initDiffSingleEnv_ok_inv in H as (objs & pool & disc & ns & ->).
    reflexivity.
Qed.

Lemma target_carries_strategy_witness :
  DiffStrategy_of
    (DiffLocalCmd (ClientPool := string) (Discovery := string) "all"
       (mkLocalEnv "a" ["objects of /app/environments/a/main.jsonnet"%string])
       (mkLocalEnv "b" ["objects of /app/environments/b/main.jsonnet"%string]))
  = "all"%string.
Proof.
  apply (target_carries_strategy TestWorld testCmd "/app" (Some "local:a"%string)
           (Some "local:b"%string) [] "all" s0
           (snd (initDiffCmd TestWorld testCmd "/app" (Some "local:a"%string)
                   (Some "local:b"%string) [] "all" s0))).
  vm_compute. reflexivity.
Defined.

(** ** Argument errors do not depend on the order *)

(** X8.  When a locator is not qualified, or when a component filter is given,
    swapping the two locators changes nothing: the same error, nothing
    called. *)
Theorem argument_errors_are_symmetric (X : Collaborators) (cmd : Command X)
    (wd : AbsPath) (a b : string) (files : list string) (diffStrategy : string)
    (s : State (World X)) :
  qualified a && qualified b = false \/ files <> [] ->
  initDiffCmd X cmd wd (Some a) (Some b) files diffStrategy s
  = initDiffCmd X cmd wd (Some b) (Some a) files diffStrategy s
  /\ exists e, initDiffCmd X cmd wd (Some a) (Some b) files diffStrategy s = (Err e, s).
Proof.
  intros H. destruct (qualified a && qualified b) eqn:Q.
  - destruct H as [H | H]; [discriminate |].
    rewrite !initDiffCmd_filter; try assumption.
    + split; [reflexivity | eauto].
    + now rewrite andb_comm.
  - rewrite !initDiffCmd_unqualified; try assumption.
    + split; [reflexivity | eauto].
    + now rewrite andb_comm.
Qed.

Lemma argument_errors_are_symmetric_witness :
  initDiffCmd TestWorld testCmd "/app" (Some "dev"%string) (Some "remote:prod"%string)
    [] "subset" s0
  = initDiffCmd TestWorld testCmd "/app" (Some "remote:prod"%string) (Some "dev"%string)
      [] "subset" s0.
Proof.
  apply (argument_errors_are_symmetric TestWorld testCmd "/app" "dev" "remote:prod"
           [] "subset" s0).
  left. reflexivity.
Defined.

(** ** Failures of the collaborators *)

(** X9.  The three preparations of [expandEnvObjs] are tried in the order
    expander, component paths, base object, and the first that fails ends
    the expansion with its error: nothing after it is called, and in
    particular the evaluator is not. *)
Theorem expansion_stops_at_first_failure (X : Collaborators) (cmd : Command X)
    (env : string) (m : Manager X) (s : State (World X)) :
  (forall e w1,
     newExpander X cmd (world s) = (Err e, w1) ->
     expandEnvObjs X cmd env m s = (Err e, mkState w1 (log s ++ [EvNewExpander])))
  /\ (forall e0 w1 e w2,
        newExpander X cmd (world s) = (Ok e0, w1) ->
        ComponentPaths X m w1 = (Err e, w2) ->
        expandEnvObjs X cmd env m s
        = (Err e, mkState w2 (log s ++ [EvNewExpander; EvComponentPaths])))
  /\ (forall e0 w1 cps w2 e w3,
        newExpander X cmd (world s) = (Ok e0, w1) ->
        ComponentPaths X m w1 = (Ok cps, w2) ->
        constructBaseObj X cps [] w2 = (Err e, w3) ->
        expandEnvObjs X cmd env m s
        = (Err e, mkState w3 (log s ++ [EvNewExpander; EvComponentPaths;
                                        EvConstructBaseObj cps]))).
Proof.
  unfold expandEnvObjs, bind, call. split; [| split].
  - intros e w1 H1. now rewrite H1.
  - intros e0 w1 e w2 H1 H2. rewrite H1. cbn [world log]. rewrite H2.
    now rewrite <- app_assoc.
  - intros e0 w1 cps w2 e w3 H1 H2 H3.
    rewrite H1. cbn [world log]. rewrite H2. cbn [world log]. rewrite H3.
    now rewrite <- !app_assoc.
Qed.

Lemma expansion_stops_at_first_failure_witness :
  expandEnvObjs (FaultyWorld (fun e => match e with EvComponentPaths => true | _ => false end))
    testCmd "dev" tt (mkState 0 [])
  = (Err (Foreign "fault"), mkState 2 [EvNewExpander; EvComponentPaths]).
Proof.
  apply (proj1 (proj2 (expansion_stops_at_first_failure
                         (FaultyWorld (fun e => match e with
                                                | EvComponentPaths => true
                                                | _ => false
                                                end))
                         testCmd "dev" tt (mkState 0 [])))
           (mkExpander (fst testCmd) (snd testCmd) tt) 1);
    reflexivity.
Defined.

(** X10.  [expandEnvObjs] calls the evaluator at most once, as its last call, and
    only ever with the component file of the environment as the single
    entry point. *)
Theorem evaluator_called_at_most_once (X : Collaborators) (cmd : Command X)
    (env : string) (m : Manager X) (s : State (World X)) :
  exists evs,
    log (snd (expandEnvObjs X cmd env m s)) = log s ++ evs
    /\ length evs <= 4
    /\ (supplied_files evs = []
        \/ (supplied_files evs = [[envComponentPath (LibPaths X m env)]]
            /\ exists jpath ext,
                 last evs EvRun = EvExpand jpath ext [envComponentPath (LibPaths X m env)])).
Proof.
  unfold expandEnvObjs, bind, call.
  destruct (newExpander X cmd (world s)) as [[e0 | e] w1]; cbn [world log snd].
  2: { eexists. split; [reflexivity |]. cbn. split; [lia | now left]. }
  destruct (ComponentPaths X m w1) as [[cps | e] w2]; cbn [world log snd].
  2: { eexists. split; [now rewrite <- app_assoc |]. cbn. split; [lia | now left]. }
  destruct (constructBaseObj X cps [] w2) as [[base | e] w3]; cbn [world log snd].
  2: { eexists. split; [now rewrite <- !app_assoc |]. cbn. split; [lia | now left]. }
  destruct (Expand X _ _ w3) as [r w4]. cbn [world log snd].
  eexists. split; [now rewrite <- !app_assoc |]. cbn. split; [lia | right].
  split; [reflexivity | eauto].
Qed.

(** X11.  [setupClientConfig] asks for the client first and for the namespace
    second: when the client cannot be built the namespace is not looked up,
    when the namespace fails the client is dropped, and the three values
    come back together only when both calls succeed. *)
Theorem client_config_is_all_or_nothing (X : Collaborators) (cmd : Command X)
    (env : string) (s : State (World X)) :
  (forall e w1,
     restClient X cmd env (world s) = (Err e, w1) ->
     setupClientConfig X env cmd s = (Err e, mkState w1 (log s ++ [EvRestClient env])))
  /\ (forall pd w1 e w2,
        restClient X cmd env (world s) = (Ok pd, w1) ->
        namespaceFor X w1 = (Err e, w2) ->
        setupClientConfig X env cmd s
        = (Err e, mkState w2 (log s ++ [EvRestClient env; EvNamespaceFor])))
  /\ (forall pool disc w1 ns w2,
        restClient X cmd env (world s) = (Ok (pool, disc), w1) ->
        namespaceFor X w1 = (Ok ns, w2) ->
        setupClientConfig X env cmd s
        = (Ok (pool, disc, ns), mkState w2 (log s ++ [EvRestClient env; EvNamespaceFor]))).
Proof.
  unfold setupClientConfig, bind, call, ret. split; [| split].
  - intros e w1 H1. now rewrite H1.
  - intros [pool disc] w1 e w2 H1 H2. rewrite H1. cbn [world log]. rewrite H2.
    now rewrite <- app_assoc.
  - intros pool disc w1 ns w2 H1 H2. rewrite H1. cbn [world log]. rewrite H2.
    now rewrite <- app_assoc.
Qed.

Lemma client_config_is_all_or_nothing_witness :
  setupClientConfig (FaultyWorld (fun e => match e with EvNamespaceFor => true | _ => false end))
    "prod" testCmd (mkState 0 [])
  = (Err (Foreign "fault"), mkState 2 [EvRestClient "prod"; EvNamespaceFor])
  /\ setupClientConfig TestWorld "prod" testCmd s0
     = (Ok ("pool of prod", "discovery of prod", "default")%string,
        mkState 2 [EvRestClient "prod"; EvNamespaceFor]).
Proof.
  split.
  - apply (proj1 (proj2 (client_config_is_all_or_nothing
                           (FaultyWorld (fun e => match e with
                                                  | EvNamespaceFor => true
                                                  | _ => false
                                                  end))
                           testCmd "prod" (mkState 0 [])))
             ("pool of prod", "discovery of prod")%string 1);
      reflexivity.
  - apply (proj2 (proj2 (client_config_is_all_or_nothing TestWorld testCmd "prod" s0))
             "pool of prod"%string "discovery of prod"%string 1);
      reflexivity.
Defined.

(** X12.  With two qualified locators and no filter, a failure of
    [metadata.Find] is the result of [initDiffCmd], and the lookup is the
    only call made: nothing is expanded and no client is built outside an
    application. *)
Theorem lookup_failure_stops_resolution (X : Collaborators) (cmd : Command X)
    (wd : AbsPath) (k1 k2 : Kind) (n1 n2 : string) (diffStrategy : string)
    (s : State (World X)) (e : error) (w1 : World X) :
  Find X wd (world s) = (Err e, w1) ->
  initDiffCmd X cmd wd (Some (locator k1 n1)) (Some (locator k2 n2)) [] diffStrategy s
  = (Err e, mkState w1 (log s ++ [EvFind wd])).
Proof.
  intros H. rewrite initDiffCmd_dispatch. unfold bind, call. now rewrite H.
Qed.

Lemma lookup_failure_stops_resolution_witness :
  initDiffCmd (FaultyWorld (fun e => match e with EvFind _ => true | _ => false end))
    testCmd "/tmp" (Some (locator Local "a")) (Some (locator Remote "b")) [] "subset"
    (mkState 0 [])
  = (Err (Foreign "fault"), mkState 1 [EvFind "/tmp"]).
Proof.
  apply (lookup_failure_stops_resolution
           (FaultyWorld (fun e => match e with EvFind _ => true | _ => false end))
           testCmd "/tmp" Local Remote "a" "b" "subset" (mkState 0 [])).
  reflexivity.
Defined.

(** X13.  [initDiffRemoteCmd] expands the local side first: when that fails the
    failure is the result and no client call is made for the remote side;
    when it succeeds and the client configuration fails, that failure is
    the result and the expanded objects are dropped. *)
Theorem mixed_mode_fails_fast (X : Collaborators) (cmd : Command X) (m : Manager X)
    (localEnv remoteEnv diffStrategy : string) (s : State (World X)) :
  (forall e s1,
     expandEnvObjs X cmd localEnv m s = (Err e, s1) ->
     initDiffRemoteCmd X localEnv remoteEnv diffStrategy cmd m s = (Err e, s1)
     /\ client_calls (log s1) = client_calls (log s))
  /\ (forall objs s1 e s2,
        expandEnvObjs X cmd localEnv m s = (Ok objs, s1) ->
        setupClientConfig X remoteEnv cmd s1 = (Err e, s2) ->
        initDiffRemoteCmd X localEnv remoteEnv diffStrategy cmd m s = (Err e, s2)).
Proof.
  unfold initDiffRemoteCmd, bind. split.
  - intros e s1 E. rewrite E. split; [reflexivity |].
    pose proof (expandEnvObjs_client_calls X cmd localEnv m s) as F.
    now rewrite E in F.
  - intros objs s1 e s2 E1 E2. now rewrite E1, E2.
Qed.

Lemma mixed_mode_fails_fast_witness :
  initDiffRemoteCmd TestWorld "broken" "prod" "subset" testCmd tt s0
  = (Err (Foreign "RUNTIME ERROR: broken template"),
     snd (expandEnvObjs TestWorld testCmd "broken" tt s0))
  /\ client_calls (log (snd (expandEnvObjs TestWorld testCmd "broken" tt s0)))
     = client_calls (log s0).
Proof.
  apply (proj1 (mixed_mode_fails_fast TestWorld testCmd tt "broken" "prod" "subset" s0)).
  vm_compute. reflexivity.
Defined.

(** X14.  In the one-locator form the three calls are tried in the order
    expansion, client pool, namespace, and the first that fails ends the
    resolution with its error and no further call. *)
Theorem single_locator_fails_fast (X : Collaborators) (cmd : Command X) (wd : AbsPath)
    (env : string) (files : list string) (diffStrategy : string) (s : State (World X)) :
  qualified env = false ->
  (forall e w1,
     expandEnvCmdObjs X cmd env files wd (world s) = (Err e, w1) ->
     initDiffCmd X cmd wd (Some env) None files diffStrategy s
     = (Err e, mkState w1 (log s ++ [EvExpandEnvCmdObjs env files wd])))
  /\ (forall objs w1 e w2,
        expandEnvCmdObjs X cmd env files wd (world s) = (Ok objs, w1) ->
        restClientPool X cmd env w1 = (Err e, w2) ->
        initDiffCmd X cmd wd (Some env) None files diffStrategy s
        = (Err e, mkState w2 (log s ++ [EvExpandEnvCmdObjs env files wd;
                                        EvRestClientPool env])))
  /\ (forall objs w1 pd w2 e w3,
        expandEnvCmdObjs X cmd env files wd (world s) = (Ok objs, w1) ->
        restClientPool X cmd env w1 = (Ok pd, w2) ->
        namespace X w2 = (Err e, w3) ->
        initDiffCmd X cmd wd (Some env) None files diffStrategy s
        = (Err e, mkState w3 (log s ++ [EvExpandEnvCmdObjs env files wd;
                                        EvRestClientPool env; EvNamespace]))).
Proof.
  intros Q. unfold qualified in Q.
  unfold initDiffCmd, initDiffSingleEnv. cbn [deref]. unfold bind, ret, call.
  rewrite (orb_comm (Strings.HasPrefix env "remote:")), Q.
  split; [| split].
  - intros e w1 H1. now rewrite H1.
  - intros objs w1 e w2 H1 H2. rewrite H1. cbn [world log]. rewrite H2.
    now rewrite <- app_assoc.
  - intros objs w1 [pool disc] w2 e w3 H1 H2 H3.
    rewrite H1. cbn [world log]. rewrite H2. cbn [world log]. rewrite H3.
    now rewrite <- !app_assoc.
Qed.

Lemma single_locator_fails_fast_witness :
  initDiffCmd (FaultyWorld (fun e => match e with EvRestClientPool _ => true | _ => false end))
    testCmd "/app" (Some "dev"%string) None ["redis"%string] "subset" (mkState 0 [])
  = (Err (Foreign "fault"),
     mkState 2 [EvExpandEnvCmdObjs "dev" ["redis"%string] "/app"; EvRestClientPool "dev"]).
Proof.
  apply (proj1 (proj2 (single_locator_fails_fast
                         (FaultyWorld (fun e => match e with
                                                | EvRestClientPool _ => true
                                                | _ => false
                                                end))
                         testCmd "/app" "dev" ["redis"%string] "subset" (mkState 0 [])
                         eq_refl))
           ["objects of /app/environments/dev/main.jsonnet"%string] 1);
    reflexivity.
Defined.

(** ** The command *)




(** X15.  With one or two arguments [RunE] reads the working directory, the
    component flag and the strategy flag, in this order, before it resolves
    anything: the first read that fails ends the command with its error, and
    the resolver is not entered. *)
Theorem setup_reads_fail_fast (X : Collaborators) (cmd : Command X)
    (args : list string) (s : State (World X)) :
  1 <= length args <= 2 ->
  (forall e w1,
     Getwd X (world s) = (Err e, w1) ->
     RunE X cmd args s = (Err e, mkState w1 (log s ++ [EvGetwd])))
  /\ (forall cwd w1 e w2,
        Getwd X (world s) = (Ok cwd, w1) ->
        GetStringArray X cmd (flagComponent X) w1 = (Err e, w2) ->
        RunE X cmd args s
        = (Err e, mkState w2 (log s ++ [EvGetwd; EvGetStringArray (flagComponent X)])))
  /\ (forall cwd w1 names w2 e w3,
        Getwd X (world s) = (Ok cwd, w1) ->
        GetStringArray X cmd (flagComponent X) w1 = (Ok names, w2) ->
        GetString X cmd flagDiffStrategy w2 = (Err e, w3) ->
        RunE X cmd args s
        = (Err e, mkState w3 (log s ++ [EvGetwd; EvGetStringArray (flagComponent X);
                                        EvGetString flagDiffStrategy]))).
Proof.
  intros H. unfold RunE.
  destruct (Nat.eqb_spec (length args) 0) as [E | _]; [lia |].
  destruct (Nat.ltb_spec 2 (length args)); [lia |].
  unfold bind, call. split; [| split].
  - intros e w1 H1. now rewrite H1.
  - intros cwd w1 e w2 H1 H2. rewrite H1. cbn [world log]. rewrite H2.
    now rewrite <- app_assoc.
  - intros cwd w1 names w2 e w3 H1 H2 H3.
    rewrite H1. cbn [world log]. rewrite H2. cbn [world log]. rewrite H3.
    now rewrite <- !app_assoc.
Qed.

Lemma setup_reads_fail_fast_witness :
  RunE (FaultyWorld (fun e => match e with EvGetString _ => true | _ => false end))
    testCmd ["local:a"; "remote:b"]%string (mkState 0 [])
  = (Err (Foreign "fault"),
     mkState 3 [EvGetwd; EvGetStringArray "component"; EvGetString "diff-strategy"]).
Proof.
  apply (proj2 (proj2 (setup_reads_fail_fast
                         (FaultyWorld (fun e => match e with
                                                | EvGetString _ => true
                                                | _ => false
                                                end))
                         testCmd ["local:a"; "remote:b"]%string (mkState 0 [])
                         (conj (le_S _ _ (le_n 1)) (le_n 2))))
           "/app"%string 1 [] 2);
    reflexivity.
Defined.



(** ** The names in a target *)

(** X17.  A target records the environment names only when both locators have
    the same kind: two local environments and two remote clients carry the
    names of the first and of the second locator, in this order, while the
    client of the mixed form, like that of the one-locator form, has its
    [Name] left empty. *)
Theorem names_in_targets (X : Collaborators) (cmd : Command X) (wd : AbsPath)
    (diffStrategy : string) (s s' : State (World X)) (c : Target X) :
  (forall k1 k2 n1 n2,
     initDiffCmd X cmd wd (Some (locator k1 n1)) (Some (locator k2 n2)) []
       diffStrategy s = (Ok c, s') ->
     names_recorded c
     = match k1, k2 with
       | Local, Local | Remote, Remote => [n1; n2]
       | _, _ => [""%string]
       end)
  /\ (forall env files,
        initDiffCmd X cmd wd (Some env) None files diffStrategy s = (Ok c, s') ->
        names_recorded c = [""%string]).
Proof.
  split.
  - intros k1 k2 n1 n2. rewrite initDiffCmd_dispatch. intros H.
    apply bind_ok_inv in H as (m & s1 & _ & H).
    assert (R : forall l r, initDiffRemoteCmd X l r diffStrategy cmd m s1 = (Ok c, s') ->
                            names_recorded c = [""%string]).
    { intros l r H'. unfold initDiffRemoteCmd in H'.
      apply bind_ok_inv in H' as (o & s2 & _ & H').
      apply bind_ok_inv in H' as ([[p d] n] & s3 & _ & H').
      now injection H' as <- _. }
    destruct k1, k2; cbn [spec_dispatch] in H; eauto.
    + unfold initDiffLocalCmd in H.
      apply bind_ok_inv in H as (o1 & s2 & _ & H).
      apply bind_ok_inv in H as (o2 & s3 & _ & H).
      now injection H as <- _.
    + unfold initDiffRemotesCmd in H.
      apply bind_ok_inv in H as (o1 & s2 & _ & H).
      apply bind_ok_inv in H as (o2 & s3 & _ & H).
      apply bind_ok_inv in H as ([[pa da] na] & s4 & _ & H).
      apply bind_ok_inv in H as ([[pb db] nb] & s5 & _ & H).
      now injection H as <- _.
  - intros env files H. unfold initDiffCmd in H. cbn [deref] in H.
    apply bind_ok_inv in H as (e1 & s1 & _ & H).
    now apply initDiffSingleEnv_ok_inv in H as (objs & pool & disc & ns & ->).
Qed.

Lemma names_in_targets_witness :
  names_recorded
    (DiffRemotesCmd (Unstructured := string) "subset"
       (mkClient "us-west/dev" ["objects of /app/environments/us-west/dev/main.jsonnet"%string]
                 "pool of us-west/dev" "discovery of us-west/dev" "default")
       (mkClient "us-west/prod" ["objects of /app/environments/us-west/prod/main.jsonnet"%string]
                 "pool of us-west/prod" "discovery of us-west/prod" "default"))
  = ["us-west/dev"; "us-west/prod"]%string.
Proof.
  apply (proj1 (names_in_targets TestWorld testCmd "/app" "subset" s0
                  (snd (initDiffCmd TestWorld testCmd "/app"
                          (Some (locator Remote "us-west/dev"))
                          (Some (locator Remote "us-west/prod")) [] "subset" s0))
                  _)
           Remote Remote "us-west/dev"%string "us-west/prod"%string).
  vm_compute. reflexivity.
Defined.
